(** * DMPC: the user-record merge engine and the key/envelope helpers

    A shallow embedding of

    - package [users]: the record types of a user and
      [applyUpdateRequest], [booleanRecord.update], [keyRecord.update];
    - package [core] (crypto_utilities.go): [AsymKeyToString],
      [StringToAsymKey], [GenerateTemporaryEncryptedOperation] and
      [GenerateTemporaryEncryptedOperationWithEncryption].

    Go values are modelled as follows.  A [time.Time] is the instant it
    denotes, an integer count of nanoseconds ([Z]); [Time.After] is the
    strict order on instants.  A Go [string] and a [[]byte] are byte
    sequences, both modelled by [string].  A [map[string]string] is a
    [gmap string string].  A pointer that may be nil is an [option]; a
    nil dereference is a run-time panic and is modelled by the result
    [None] (users) or [Panic] (core). *)

From Stdlib Require Import ZArith Lia.
From stdpp Require Import base option list strings gmap.

Local Open Scope string_scope.

(** ** time.Time *)

Definition Time : Type := Z.
Bind Scope Z_scope with Time.

(** [t.After(u)]: the instant [t] is strictly after [u]. *)
Definition After (t u : Time) : bool := (u <? t)%Z.

(** ** rsa.PublicKey: modulus and public exponent *)

Record PublicKey : Type := mkPublicKey { rsaN : Z; rsaE : Z }.

(** ** Package users: the record of a user *)

Record keyRecord : Type := mkKeyRecord {
  kr_Key : PublicKey;
  kr_UpdatedAt : Time
}.

Record booleanRecord : Type := mkBooleanRecord {
  br_Ok : bool;
  br_UpdatedAt : Time
}.

Record channelPermissionsRecord : Type := mkChannelPermissionsRecord {
  cp_Add : booleanRecord;
  cp_UpdatedAt : Time
}.

Record userPermissionsRecord : Type := mkUserPermissionsRecord {
  up_Add : booleanRecord;
  up_Remove : booleanRecord;
  up_EncKeyUpdate : booleanRecord;
  up_SignKeyUpdate : booleanRecord;
  up_PermissionsUpdate : booleanRecord;
  up_UpdatedAt : Time
}.

Record permissionsRecord : Type := mkPermissionsRecord {
  p_Channel : channelPermissionsRecord;
  p_User : userPermissionsRecord;
  p_UpdatedAt : Time
}.

Record userRecord : Type := mkUserRecord {
  Id : string;
  EncKey : keyRecord;
  SignKey : keyRecord;
  Permissions : permissionsRecord;
  Active : booleanRecord;
  CreatedAt : Time;
  UpdatedAt : Time
}.

(** ** The update request

    Modelled from the spec: the declaration of [UserRequest] (and of the
    object in its [Data] field) is not among the sources.  The fields
    below are exactly those that [applyUpdateRequest] reads:
    [req.FieldsUpdated], [req.Timestamp], [req.Data.Active],
    [req.Data.encKeyObject] and [req.Data.signKeyObject] (both
    dereferenced, hence pointers to an [rsa.PublicKey]) and the booleans
    under [req.Data.Permissions]. *)

Record ChannelPermissionsObject : Type := mkChannelPermissionsObject {
  cpo_Add : bool
}.

Record UserPermissionsObject : Type := mkUserPermissionsObject {
  upo_Add : bool;
  upo_Remove : bool;
  upo_EncKeyUpdate : bool;
  upo_SignKeyUpdate : bool;
  upo_PermissionsUpdate : bool
}.

Record PermissionsObject : Type := mkPermissionsObject {
  po_Channel : ChannelPermissionsObject;
  po_User : UserPermissionsObject
}.

Record UserObject : Type := mkUserObject {
  uo_Active : bool;
  encKeyObject : option PublicKey;
  signKeyObject : option PublicKey;
  uo_Permissions : PermissionsObject
}.

Record UserRequest : Type := mkUserRequest {
  FieldsUpdated : list string;
  Data : UserObject;
  Timestamp : Time
}.

(** ** Assignments to the fields of a record (Go: [x.f = v]) *)

Definition set_UpdatedAt (r : userRecord) (t : Time) : userRecord :=
  mkUserRecord (Id r) (EncKey r) (SignKey r) (Permissions r) (Active r) (CreatedAt r) t.

Definition set_Active (r : userRecord) (b : booleanRecord) : userRecord :=
  mkUserRecord (Id r) (EncKey r) (SignKey r) (Permissions r) b (CreatedAt r) (UpdatedAt r).

Definition set_EncKey (r : userRecord) (k : keyRecord) : userRecord :=
  mkUserRecord (Id r) k (SignKey r) (Permissions r) (Active r) (CreatedAt r) (UpdatedAt r).

Definition set_SignKey (r : userRecord) (k : keyRecord) : userRecord :=
  mkUserRecord (Id r) (EncKey r) k (Permissions r) (Active r) (CreatedAt r) (UpdatedAt r).

Definition set_Permissions (r : userRecord) (p : permissionsRecord) : userRecord :=
  mkUserRecord (Id r) (EncKey r) (SignKey r) p (Active r) (CreatedAt r) (UpdatedAt r).

Definition set_p_UpdatedAt (p : permissionsRecord) (t : Time) : permissionsRecord :=
  mkPermissionsRecord (p_Channel p) (p_User p) t.

Definition set_p_Channel (p : permissionsRecord) (c : channelPermissionsRecord) : permissionsRecord :=
  mkPermissionsRecord c (p_User p) (p_UpdatedAt p).

Definition set_p_User (p : permissionsRecord) (u : userPermissionsRecord) : permissionsRecord :=
  mkPermissionsRecord (p_Channel p) u (p_UpdatedAt p).

Definition set_cp_Add (c : channelPermissionsRecord) (b : booleanRecord) : channelPermissionsRecord :=
  mkChannelPermissionsRecord b (cp_UpdatedAt c).

Definition set_cp_UpdatedAt (c : channelPermissionsRecord) (t : Time) : channelPermissionsRecord :=
  mkChannelPermissionsRecord (cp_Add c) t.

Definition set_up_UpdatedAt (u : userPermissionsRecord) (t : Time) : userPermissionsRecord :=
  mkUserPermissionsRecord (up_Add u) (up_Remove u) (up_EncKeyUpdate u)
    (up_SignKeyUpdate u) (up_PermissionsUpdate u) t.

(** The target of the pointer [perm *booleanRecord] of the inner switch:
    one of the five booleans of [record.Permissions.User]. *)
Inductive userPerm : Type :=
  | UAdd | URemove | UEncKeyUpdate | USignKeyUpdate | UPermissionsUpdate.

(** [*perm] read. *)
Definition up_get (u : userPermissionsRecord) (w : userPerm) : booleanRecord :=
  match w with
  | UAdd => up_Add u
  | URemove => up_Remove u
  | UEncKeyUpdate => up_EncKeyUpdate u
  | USignKeyUpdate => up_SignKeyUpdate u
  | UPermissionsUpdate => up_PermissionsUpdate u
  end.

(** [*perm = b] written. *)
Definition up_set (u : userPermissionsRecord) (w : userPerm) (b : booleanRecord)
  : userPermissionsRecord :=
  match w with
  | UAdd =>
      mkUserPermissionsRecord b (up_Remove u) (up_EncKeyUpdate u)
        (up_SignKeyUpdate u) (up_PermissionsUpdate u) (up_UpdatedAt u)
  | URemove =>
      mkUserPermissionsRecord (up_Add u) b (up_EncKeyUpdate u)
        (up_SignKeyUpdate u) (up_PermissionsUpdate u) (up_UpdatedAt u)
  | UEncKeyUpdate =>
      mkUserPermissionsRecord (up_Add u) (up_Remove u) b
        (up_SignKeyUpdate u) (up_PermissionsUpdate u) (up_UpdatedAt u)
  | USignKeyUpdate =>
      mkUserPermissionsRecord (up_Add u) (up_Remove u) (up_EncKeyUpdate u)
        b (up_PermissionsUpdate u) (up_UpdatedAt u)
  | UPermissionsUpdate =>
      mkUserPermissionsRecord (up_Add u) (up_Remove u) (up_EncKeyUpdate u)
        (up_SignKeyUpdate u) b (up_UpdatedAt u)
  end.

(** ** The two update methods

    Each returns the record after the call (the receiver is a pointer,
    the write is in place) and the boolean the method returns. *)

Definition booleanRecord_update (perm : booleanRecord) (val : bool) (time : Time)
  : booleanRecord * bool :=
  if After time (br_UpdatedAt perm)
  then (mkBooleanRecord val time, true)
  else (perm, false).

Definition keyRecord_update (keyRec : keyRecord) (val : PublicKey) (time : Time)
  : keyRecord * bool :=
  if After time (kr_UpdatedAt keyRec)
  then (mkKeyRecord val time, true)
  else (keyRec, false).

(** ** applyUpdateRequest *)

(** The inner switch of the user-permission case: the pointer [perm] and
    the value [reqVal].  No case of it has to match ([None]: [perm]
    stays nil). *)
Definition userPermCase (req : UserRequest) (field : string) : option userPerm * bool :=
  let d := po_User (uo_Permissions (Data req)) in
  if String.eqb field "permissions.user.add" then (Some UAdd, upo_Add d)
  else if String.eqb field "permissions.user.remove" then (Some URemove, upo_Remove d)
  else if String.eqb field "permissions.user.encKeyUpdate"
       then (Some UEncKeyUpdate, upo_EncKeyUpdate d)
  else if String.eqb field "permissions.user.signKeyUpdate"
       then (Some USignKeyUpdate, upo_SignKeyUpdate d)
  else if String.eqb field "permissions.user.permissionsUpdate"
       then (Some UPermissionsUpdate, upo_PermissionsUpdate d)
  else (None, false).

(** The labels of the fifth case of the outer switch. *)
Definition isUserPermField (field : string) : bool :=
  String.eqb field "permissions.user.add"
  || String.eqb field "permissions.user.remove"
  || String.eqb field "permissions.user.encKeyUpdate"
  || String.eqb field "permissions.user.signKeyUpdate"
  || String.eqb field "permissions.user.permissionsUpdate".

(** One iteration of the loop: the outer switch on [field].  The result
    is [None] when the iteration panics on a nil pointer; otherwise the
    record after the iteration and the boolean the [update] call
    returned ([false] when no case matched and nothing was called). *)
Definition applyField (record : userRecord) (req : UserRequest) (field : string)
  : option (userRecord * bool) :=
  let ts := Timestamp req in
  if String.eqb field "active" then
    let '(b, ok) := booleanRecord_update (Active record) (uo_Active (Data req)) ts in
    let record := set_Active record b in
    Some (if ok then set_UpdatedAt record ts else record, ok)
  else if String.eqb field "encKey" then
    match encKeyObject (Data req) with
    | None => None
    | Some key =>
        let '(k, ok) := keyRecord_update (EncKey record) key ts in
        let record := set_EncKey record k in
        Some (if ok then set_UpdatedAt record ts else record, ok)
    end
  else if String.eqb field "signKey" then
    match signKeyObject (Data req) with
    | None => None
    | Some key =>
        let '(k, ok) := keyRecord_update (SignKey record) key ts in
        let record := set_SignKey record k in
        Some (if ok then set_UpdatedAt record ts else record, ok)
    end
  else if String.eqb field "permissions.channel.add" then
    let perms := Permissions record in
    let '(b, ok) :=
      booleanRecord_update (cp_Add (p_Channel perms))
        (cpo_Add (po_Channel (uo_Permissions (Data req)))) ts in
    let chan := set_cp_Add (p_Channel perms) b in
    if ok then
      Some (set_UpdatedAt
              (set_Permissions record
                 (set_p_UpdatedAt (set_p_Channel perms (set_cp_UpdatedAt chan ts)) ts))
              ts, true)
    else Some (set_Permissions record (set_p_Channel perms chan), false)
  else if isUserPermField field then
    match userPermCase req field with
    | (None, _) => None
    | (Some perm, reqVal) =>
        let perms := Permissions record in
        let '(b, ok) := booleanRecord_update (up_get (p_User perms) perm) reqVal ts in
        let user := up_set (p_User perms) perm b in
        if ok then
          Some (set_UpdatedAt
                  (set_Permissions record
                     (set_p_UpdatedAt (set_p_User perms (set_up_UpdatedAt user ts)) ts))
                  ts, true)
        else Some (set_Permissions record (set_p_User perms user), false)
    end
  else Some (record, false).

(** The loop over [req.FieldsUpdated].  The receiver [record] and the
    request [req] are pointers, taken to be non-nil; the record after
    the call is the receiver as the loop leaves it.  [None]: some
    iteration panicked. *)
Fixpoint applyFields (record : userRecord) (req : UserRequest) (fields : list string)
  : option userRecord :=
  match fields with
  | [] => Some record
  | field :: rest =>
      match applyField record req field with
      | None => None
      | Some (record', _) => applyFields record' req rest
      end
  end.

Definition applyUpdateRequest (record : userRecord) (req : UserRequest)
  : option userRecord :=
  applyFields record req (FieldsUpdated req).

(** A sequence of [applyUpdateRequest] calls on the same record. *)
Fixpoint applyRequests (record : userRecord) (reqs : list UserRequest)
  : option userRecord :=
  match reqs with
  | [] => Some record
  | req :: rest =>
      match applyUpdateRequest record req with
      | None => None
      | Some record' => applyRequests record' rest
      end
  end.

(** The field names whose [update] call returned [true], in the order
    of the loop. *)
Fixpoint acceptedFields (record : userRecord) (req : UserRequest) (fields : list string)
  : list string :=
  match fields with
  | [] => []
  | field :: rest =>
      match applyField record req field with
      | None => []
      | Some (record', ok) =>
          (if ok then [field] else []) ++ acceptedFields record' req rest
      end
  end.

(** ** The leaves and containers of a record, as the specification names them *)

Inductive leafPath : Type :=
  | LActive | LEncKey | LSignKey | LChannelAdd | LUser (w : userPerm).

Inductive leafValue : Type :=
  | VBool (b : bool)
  | VKey (k : PublicKey).

Inductive container : Type :=
  | CRoot | CPermissions | CChannel | CUser.

#[global] Instance userPerm_eq_dec : EqDecision userPerm.
Proof. solve_decision. Defined.

#[global] Instance leafPath_eq_dec : EqDecision leafPath.
Proof. solve_decision. Defined.

(** The leaf a field path addresses: the case labels of the two
    switches of [applyUpdateRequest]. *)
Definition resolve (field : string) : option leafPath :=
  if String.eqb field "active" then Some LActive
  else if String.eqb field "encKey" then Some LEncKey
  else if String.eqb field "signKey" then Some LSignKey
  else if String.eqb field "permissions.channel.add" then Some LChannelAdd
  else if String.eqb field "permissions.user.add" then Some (LUser UAdd)
  else if String.eqb field "permissions.user.remove" then Some (LUser URemove)
  else if String.eqb field "permissions.user.encKeyUpdate" then Some (LUser UEncKeyUpdate)
  else if String.eqb field "permissions.user.signKeyUpdate" then Some (LUser USignKeyUpdate)
  else if String.eqb field "permissions.user.permissionsUpdate"
       then Some (LUser UPermissionsUpdate)
  else None.

(** The nine recognized field paths. *)
Definition recognizedPaths : list string :=
  [ "active"; "encKey"; "signKey"; "permissions.channel.add";
    "permissions.user.add"; "permissions.user.remove";
    "permissions.user.encKeyUpdate"; "permissions.user.signKeyUpdate";
    "permissions.user.permissionsUpdate" ].

Definition leafTime (r : userRecord) (p : leafPath) : Time :=
  match p with
  | LActive => br_UpdatedAt (Active r)
  | LEncKey => kr_UpdatedAt (EncKey r)
  | LSignKey => kr_UpdatedAt (SignKey r)
  | LChannelAdd => br_UpdatedAt (cp_Add (p_Channel (Permissions r)))
  | LUser w => br_UpdatedAt (up_get (p_User (Permissions r)) w)
  end.

Definition leafVal (r : userRecord) (p : leafPath) : leafValue :=
  match p with
  | LActive => VBool (br_Ok (Active r))
  | LEncKey => VKey (kr_Key (EncKey r))
  | LSignKey => VKey (kr_Key (SignKey r))
  | LChannelAdd => VBool (br_Ok (cp_Add (p_Channel (Permissions r))))
  | LUser w => VBool (br_Ok (up_get (p_User (Permissions r)) w))
  end.

(** The candidate value a request carries for a leaf; [None] when the
    request's key pointer for that leaf is nil. *)
Definition reqLeaf (req : UserRequest) (p : leafPath) : option leafValue :=
  match p with
  | LActive => Some (VBool (uo_Active (Data req)))
  | LEncKey => VKey <$> encKeyObject (Data req)
  | LSignKey => VKey <$> signKeyObject (Data req)
  | LChannelAdd => Some (VBool (cpo_Add (po_Channel (uo_Permissions (Data req)))))
  | LUser w =>
      let d := po_User (uo_Permissions (Data req)) in
      Some (VBool match w with
                  | UAdd => upo_Add d
                  | URemove => upo_Remove d
                  | UEncKeyUpdate => upo_EncKeyUpdate d
                  | USignKeyUpdate => upo_SignKeyUpdate d
                  | UPermissionsUpdate => upo_PermissionsUpdate d
                  end)
  end.

Definition containerTime (r : userRecord) (c : container) : Time :=
  match c with
  | CRoot => UpdatedAt r
  | CPermissions => p_UpdatedAt (Permissions r)
  | CChannel => cp_UpdatedAt (p_Channel (Permissions r))
  | CUser => up_UpdatedAt (p_User (Permissions r))
  end.

(** [isAncestor c p]: the container [c] lies on the path from the leaf
    [p] to the record root. *)
Definition isAncestor (c : container) (p : leafPath) : bool :=
  match c, p with
  | CRoot, _ => true
  | CPermissions, (LChannelAdd | LUser _) => true
  | CChannel, LChannelAdd => true
  | CUser, LUser _ => true
  | _, _ => false
  end.

(** The latest [UpdatedAt] among the leaves below a container. *)
Definition userLeavesMax (r : userRecord) : Time :=
  Z.max (leafTime r (LUser UAdd))
    (Z.max (leafTime r (LUser URemove))
       (Z.max (leafTime r (LUser UEncKeyUpdate))
          (Z.max (leafTime r (LUser USignKeyUpdate))
             (leafTime r (LUser UPermissionsUpdate))))).

Definition descendantsMax (r : userRecord) (c : container) : Time :=
  match c with
  | CRoot =>
      Z.max (leafTime r LActive)
        (Z.max (leafTime r LEncKey)
           (Z.max (leafTime r LSignKey)
              (Z.max (leafTime r LChannelAdd) (userLeavesMax r))))
  | CPermissions => Z.max (leafTime r LChannelAdd) (userLeavesMax r)
  | CChannel => leafTime r LChannelAdd
  | CUser => userLeavesMax r
  end.

(** The roll-up invariant of the specification: every container's
    [UpdatedAt] is the latest [UpdatedAt] among its descendant leaves. *)
Definition rollup_inv (r : userRecord) : Prop :=
  containerTime r CRoot = descendantsMax r CRoot
  /\ containerTime r CPermissions = descendantsMax r CPermissions
  /\ containerTime r CChannel = descendantsMax r CChannel
  /\ containerTime r CUser = descendantsMax r CUser.

#[global] Instance rollup_inv_dec (r : userRecord) : Decision (rollup_inv r).
Proof. unfold rollup_inv. apply _. Defined.

(** The timestamps of a sequence of requests never go back, starting
    from the instant [t]. *)
Fixpoint ascending (t : Time) (reqs : list UserRequest) : Prop :=
  match reqs with
  | [] => True
  | req :: rest => (t <= Timestamp req)%Z /\ ascending (Timestamp req) rest
  end.

(** The specification's [ApplyFieldUpdate] on acceptance: the leaf takes
    the candidate value and timestamp, ... *)
Definition writeLeaf (r : userRecord) (p : leafPath) (v : leafValue) (t : Time)
  : userRecord :=
  match p, v with
  | LActive, VBool b => set_Active r (mkBooleanRecord b t)
  | LEncKey, VKey k => set_EncKey r (mkKeyRecord k t)
  | LSignKey, VKey k => set_SignKey r (mkKeyRecord k t)
  | LChannelAdd, VBool b =>
      set_Permissions r
        (set_p_Channel (Permissions r)
           (set_cp_Add (p_Channel (Permissions r)) (mkBooleanRecord b t)))
  | LUser w, VBool b =>
      set_Permissions r
        (set_p_User (Permissions r)
           (up_set (p_User (Permissions r)) w (mkBooleanRecord b t)))
  | _, _ => r
  end.

(** ... and every container on the path to the root takes the
    timestamp. *)
Definition touchAncestors (r : userRecord) (p : leafPath) (t : Time) : userRecord :=
  match p with
  | LActive | LEncKey | LSignKey => set_UpdatedAt r t
  | LChannelAdd =>
      set_UpdatedAt
        (set_Permissions r
           (set_p_UpdatedAt
              (set_p_Channel (Permissions r)
                 (set_cp_UpdatedAt (p_Channel (Permissions r)) t)) t)) t
  | LUser _ =>
      set_UpdatedAt
        (set_Permissions r
           (set_p_UpdatedAt
              (set_p_User (Permissions r)
                 (set_up_UpdatedAt (p_User (Permissions r)) t)) t)) t
  end.

Definition acceptLeaf (r : userRecord) (p : leafPath) (v : leafValue) (t : Time)
  : userRecord :=
  touchAncestors (writeLeaf r p v t) p t.

(** The specification's [ApplyFieldUpdate] for a resolved leaf: accept
    iff the candidate timestamp is strictly after the leaf's. *)
Definition ApplyFieldUpdate (r : userRecord) (p : leafPath) (v : leafValue) (t : Time)
  : userRecord * bool :=
  if After t (leafTime r p) then (acceptLeaf r p v t, true) else (r, false).

(** ** Predicates and observations used in the statements *)

(** The candidate value of a request has the type of its leaf. *)
Definition wellTyped (p : leafPath) (v : leafValue) : Prop :=
  match p, v with
  | (LEncKey | LSignKey), VKey _ => True
  | (LActive | LChannelAdd | LUser _), VBool _ => True
  | _, _ => False
  end.

(** A named field that changes nothing: its path is not recognized, or
    it addresses a leaf whose [UpdatedAt] is not before the request's
    timestamp (and the request carries a value for it). *)
Definition unknownOrStale (r : userRecord) (req : UserRequest) (field : string) : Prop :=
  field ∉ recognizedPaths
  \/ exists p : leafPath,
      resolve field = Some p /\ is_Some (reqLeaf req p)
      /\ (Timestamp req <= leafTime r p)%Z.

(** The request names a key path and carries a nil key object for it. *)
Definition nilKeyNamed (req : UserRequest) : Prop :=
  ("encKey" ∈ FieldsUpdated req /\ encKeyObject (Data req) = None)
  \/ ("signKey" ∈ FieldsUpdated req /\ signKeyObject (Data req) = None).

(** Some name of [fields] addresses the leaf [p]. *)
Definition names (fields : list string) (p : leafPath) : bool :=
  existsb (fun f => bool_decide (resolve f = Some p)) fields.

(** ** Package core: crypto_utilities.go *)

(** What a Go call yields: a value, a non-nil [error] (its message), or
    a run-time panic. *)
Inductive outcome (A : Type) : Type :=
  | Ok (a : A)
  | Err (msg : string)
  | Panic.
Arguments Ok {A} a.
Arguments Err {A} msg.
Arguments Panic {A}.

(** [pem.Block]. *)
Record Block : Type := mkBlock {
  b_Type : string;
  b_Headers : gmap string string;
  b_Bytes : string
}.

(** The dynamic type of the value [x509.ParsePKIXPublicKey] returns: an
    [*rsa.PublicKey], or a key of another kind ([*ecdsa.PublicKey],
    [ed25519.PublicKey], ...), named by [kind]. *)
Inductive pkixKey : Type :=
  | RSAPublicKey (k : PublicKey)
  | OtherPublicKey (kind : string).

(** The functions of Go's [encoding/pem] and [crypto/x509] that the
    package calls, taken as parameters.  A call that returns
    [(value, error)] is a sum: [inl] the value (the error is nil), [inr]
    the message of the error (the value is nil).  [pem.Decode] returns
    the block, nil when the input holds none, and the rest of the
    input. *)
Class PemX509 : Type := {
  pem_EncodeToMemory : Block -> string;
  pem_Decode : string -> option Block * string;
  x509_MarshalPKIXPublicKey : pkixKey -> string + string;
  x509_ParsePKIXPublicKey : string -> pkixKey + string
}.

(** [AsymKeyToString].  The error of [MarshalPKIXPublicKey] is dropped
    ([keyBytes] is then nil, the empty byte sequence); the [pem.Encode]
    into [buf] has no effect on the result. *)
Definition AsymKeyToString `{PemX509} (key : PublicKey) : string :=
  let keyBytes :=
    match x509_MarshalPKIXPublicKey (RSAPublicKey key) with
    | inl der => der
    | inr _ => ""
    end in
  let block := mkBlock "RSA PUBLIC KEY" ∅ keyBytes in
  pem_EncodeToMemory block.

(** [StringToAsymKey].  In the [default] case of the type switch [err]
    is nil (the check [err != nil] has just failed), so [err.Error()]
    is a call on a nil interface: a panic. *)
Definition StringToAsymKey `{PemX509} (rsaString : string) : outcome PublicKey :=
  match pem_Decode rsaString with
  | (None, _) => Err "failed to parse PEM block containing the public key"
  | (Some block, _) =>
      match x509_ParsePKIXPublicKey (b_Bytes block) with
      | inr err => Err ("failed to parse DER encoded public key: " ++ err)
      | inl (RSAPublicKey pub) => Ok pub
      | inl (OtherPublicKey _) => Panic
      end
  end.

(** [rsa.PrivateKey]: it embeds the public key. *)
Record PrivateKey : Type := mkPrivateKey {
  pk_PublicKey : PublicKey;
  rsaD : Z
}.

(** Modelled from the spec: the declaration of
    [TemporaryEncryptedOperation] is not among the sources; the fields
    are those of the composite literal in
    [GenerateTemporaryEncryptedOperation], of the JSON shape
    [{version, encryption: {encrypted, challenges, nonce}, payload}].
    The float literal [0.1] of [Version] is kept as its decimal
    mantissa and exponent. *)
Record TemporaryEncryptionFields : Type := mkTemporaryEncryptionFields {
  Encrypted : bool;
  Challenges : gmap string string;
  Nonce : string
}.

Record TemporaryEncryptedOperation : Type := mkTemporaryEncryptedOperation {
  Version : Z * Z;
  Encryption : TemporaryEncryptionFields;
  Payload : string
}.

(** The functions and constants of the package (and of [crypto/rand],
    [crypto/rsa]) that the two generators call and that are not among
    the sources, taken as parameters.  [Rand] is the state of the
    random source, threaded through every call that reads it.  A call
    whose error the generators drop is modelled by the value it
    returns. *)
Class CorePrims : Type := {
  Rand : Type;
  Aead : Type;
  SymmetricNonceSize : nat;
  SymmetricKeySize : nat;
  AsymmetricKeySizeBits : nat;
  rand_Read : nat -> Rand -> string * Rand;
  rsa_GenerateKey : nat -> Rand -> option PrivateKey * Rand;
  NewAead : string -> Aead;
  SymmetricEncrypt : Aead -> string -> string -> string -> string;
  AsymmetricEncrypt : PublicKey -> string -> Rand -> string * Rand;
  Base64EncodeToString : string -> string
}.

(** [generateRandomBytes] (crypto_test.go). *)
Definition generateRandomBytes `{CorePrims} (nbBytes : nat) (rnd : Rand) : string * Rand :=
  rand_Read nbBytes rnd.

(** [generatePrivateKey] (crypto_test.go); nil when key generation
    fails. *)
Definition generatePrivateKey `{CorePrims} (rnd : Rand) : option PrivateKey * Rand :=
  rsa_GenerateKey AsymmetricKeySizeBits rnd.

Definition GenerateTemporaryEncryptedOperation `{CorePrims}
    (encrypted : bool) (challenges : gmap string string)
    (nonce : string) (nonceEncoded : bool)
    (payload : string) (payloadEncoded : bool) : TemporaryEncryptedOperation :=
  let nonceResult := if nonceEncoded then nonce else Base64EncodeToString nonce in
  let payloadResult := if payloadEncoded then payload else Base64EncodeToString payload in
  mkTemporaryEncryptedOperation (1, -1)%Z
    (mkTemporaryEncryptionFields encrypted challenges nonceResult)
    payloadResult.

(** [if recipientKey == nil { recipientKey = generatePrivateKey() }]. *)
Definition recipientOrFresh `{CorePrims} (recipientKey : option PrivateKey) (rnd : Rand)
  : option PrivateKey * Rand :=
  match recipientKey with
  | Some key => (Some key, rnd)
  | None => generatePrivateKey rnd
  end.

(** [GenerateTemporaryEncryptedOperationWithEncryption].  The hook
    [modifyChallenges] mutates the map it is given in place: a function
    from the map before the call to the map after it; calling a nil
    hook panics, and so does [&recipientKey.PublicKey] on a nil key. *)
Definition GenerateTemporaryEncryptedOperationWithEncryption `{CorePrims}
    (plainPayload plaintextChallenge : string)
    (modifyChallenges : option (gmap string string -> gmap string string))
    (recipientKey : option PrivateKey) (rnd : Rand)
  : outcome (TemporaryEncryptedOperation * PrivateKey) :=
  let '(temporaryNonce, rnd) := generateRandomBytes SymmetricNonceSize rnd in
  let '(temporaryKey, rnd) := generateRandomBytes SymmetricKeySize rnd in
  let aead := NewAead temporaryKey in
  let payloadCiphertext := SymmetricEncrypt aead "" temporaryNonce plainPayload in
  let challengeCiphertext := SymmetricEncrypt aead "" temporaryNonce plaintextChallenge in
  let '(recipientKey, rnd) := recipientOrFresh recipientKey rnd in
  match recipientKey with
  | None => Panic
  | Some recipientKey =>
      let '(symKeyEncrypted, _) :=
        AsymmetricEncrypt (pk_PublicKey recipientKey) temporaryKey rnd in
      let challengeCiphertextBase64 := Base64EncodeToString challengeCiphertext in
      let symKeyEncryptedBase64 := Base64EncodeToString symKeyEncrypted in
      let challenges : gmap string string :=
        {[ symKeyEncryptedBase64 := challengeCiphertextBase64 ]} in
      match modifyChallenges with
      | None => Panic
      | Some hook =>
          Ok (GenerateTemporaryEncryptedOperation true (hook challenges)
                temporaryNonce false payloadCiphertext false,
              recipientKey)
      end
  end.

(** The values the sealer draws and computes on the way, in the order
    of the code: the nonce, the single-use symmetric key, the recipient
    key in use and the asymmetric ciphertext of the symmetric key. *)
Definition sealNonce `{CorePrims} (rnd : Rand) : string :=
  fst (generateRandomBytes SymmetricNonceSize rnd).

Definition sealKey `{CorePrims} (rnd : Rand) : string :=
  fst (generateRandomBytes SymmetricKeySize
         (snd (generateRandomBytes SymmetricNonceSize rnd))).

Definition sealRecipient `{CorePrims} (recipientKey : option PrivateKey) (rnd : Rand)
  : option PrivateKey * Rand :=
  recipientOrFresh recipientKey
    (snd (generateRandomBytes SymmetricKeySize
            (snd (generateRandomBytes SymmetricNonceSize rnd)))).

(** The one entry the sealer builds for the recipient [key]. *)
Definition recipientEntry `{CorePrims} (key : PrivateKey) (plaintextChallenge : string)
    (recipientKey : option PrivateKey) (rnd : Rand) : string * string :=
  (Base64EncodeToString
     (fst (AsymmetricEncrypt (pk_PublicKey key) (sealKey rnd)
             (snd (sealRecipient recipientKey rnd)))),
   Base64EncodeToString
     (SymmetricEncrypt (NewAead (sealKey rnd)) "" (sealNonce rnd) plaintextChallenge)).

(** *** Small concrete instances, to run the definitions on *)

(** A toy library: the DER bytes ["rsa"] hold the key [(3233, 17)], the
    bytes ["ec"] hold an ECDSA key, anything else is malformed; the PEM
    text of a block is its bytes. *)
Definition toyPemX509 : PemX509 := {|
  pem_EncodeToMemory b := b_Bytes b;
  pem_Decode s :=
    if String.eqb s "" then (None, "")
    else (Some (mkBlock "RSA PUBLIC KEY" ∅ s), "");
  x509_MarshalPKIXPublicKey k :=
    match k with
    | RSAPublicKey _ => inl "rsa"
    | OtherPublicKey _ => inl "ec"
    end;
  x509_ParsePKIXPublicKey der :=
    if String.eqb der "rsa" then inl (RSAPublicKey (mkPublicKey 3233 17))
    else if String.eqb der "ec" then inl (OtherPublicKey "*ecdsa.PublicKey")
    else inr "asn1: structure error"
|}.

(** Toy primitives: the random source is a counter, the ciphers
    concatenate, base64 is the identity. *)
Definition toyCorePrims : CorePrims := {|
  Rand := nat;
  Aead := string;
  SymmetricNonceSize := 12;
  SymmetricKeySize := 32;
  AsymmetricKeySizeBits := 2048;
  rand_Read n rnd := (if Nat.even rnd then "nonce" else "key", S rnd);
  rsa_GenerateKey _ rnd := (Some (mkPrivateKey (mkPublicKey 3233 17) 2753), S rnd);
  NewAead key := key;
  SymmetricEncrypt aead _ nonce plaintext := aead ++ "/" ++ nonce ++ "/" ++ plaintext;
  AsymmetricEncrypt pub key rnd := ("rsa(" ++ key ++ ")", S rnd);
  Base64EncodeToString s := s
|}.

Definition toyRecipient : PrivateKey := mkPrivateKey (mkPublicKey 3233 17) 2753.

(** *** Concrete records and requests, to run the definitions on *)

(** A record whose leaves and containers all carry the instant [t]. *)
Definition freshRecord (t : Time) : userRecord :=
  let b := mkBooleanRecord false t in
  let k := mkKeyRecord (mkPublicKey 3233 17) t in
  mkUserRecord "USER" k k
    (mkPermissionsRecord (mkChannelPermissionsRecord b t)
       (mkUserPermissionsRecord b b b b b t) t)
    b 0%Z t.

(** A request that names [fields], carries the boolean [b] for every
    boolean leaf and no key object. *)
Definition boolRequest (fields : list string) (b : bool) (t : Time) : UserRequest :=
  mkUserRequest fields
    (mkUserObject b None None
       (mkPermissionsObject (mkChannelPermissionsObject b)
          (mkUserPermissionsObject b b b b b)))
    t.

(** A record in which [Active] was last written at 10 and everything
    else at 0: the roll-up invariant holds on it. *)
Definition laterSiblingRecord : userRecord :=
  set_UpdatedAt (set_Active (freshRecord 0) (mkBooleanRecord true 10)) 10.

(** A request that names a stale path ([active], written at 10) and a
    fresh one ([permissions.channel.add], written at 0), at 5. *)
Definition mixedRequest : UserRequest :=
  boolRequest ["active"; "permissions.channel.add"] false 5.

Definition afterMixedRequest : userRecord :=
  default laterSiblingRecord (applyUpdateRequest laterSiblingRecord mixedRequest).

(** ** Further observations on a record and a request *)

(** Some field accepted by the loop addresses a leaf below the
    container [c]. *)
Definition acceptedBelow (r : userRecord) (req : UserRequest) (fields : list string)
    (c : container) : bool :=
  existsb
    (fun f => match resolve f with
              | Some p => isAncestor c p
              | None => false
              end)
    (acceptedFields r req fields).


(** ** Package core: the permanent operation *)

(** Modelled from the spec: the declaration of
    [PermanentEncryptedOperation] is not among the sources; the fields
    are those of the composite literal in
    [GeneratePermanentEncryptedOperation], of the JSON shape
    [{encryption: {encrypted, keyId, nonce}, issue: {signature},
    certification: {signature}, meta: {requestType}, payload}]. *)
Record PermanentEncryptionFields : Type := mkPermanentEncryptionFields {
  perm_Encrypted : bool;
  KeyId : string;
  perm_Nonce : string
}.

Record PermanentAuthenticationFields : Type := mkPermanentAuthenticationFields {
  Signature : string
}.

Record PermanentMetaFields : Type := mkPermanentMetaFields {
  RequestType : Z
}.

Record PermanentEncryptedOperation : Type := mkPermanentEncryptedOperation {
  perm_Encryption : PermanentEncryptionFields;
  Issue : PermanentAuthenticationFields;
  Certification : PermanentAuthenticationFields;
  Meta : PermanentMetaFields;
  perm_Payload : string
}.

(** [Hash] and [Sign] of the package, not among the sources, taken as
    parameters.  [Sign] is given the key pointer as it is (nil when key
    generation failed), may read the random source, and its error is
    dropped by the callers. *)
Class SignPrims `{CorePrims} : Type := {
  Hash : string -> string;
  Sign : option PrivateKey -> string -> Rand -> string * Rand
}.

Definition GeneratePermanentEncryptedOperation `{CorePrims}
    (encrypted : bool) (keyId : string)
    (nonce : string) (nonceEncoded : bool)
    (issuerSignature : string) (issuerSignatureEncoded : bool)
    (certifierSignature : string) (certifierSignatureEncoded : bool)
    (requestType : Z)
    (payload : string) (payloadEncoded : bool) : PermanentEncryptedOperation :=
  let nonceResult := if nonceEncoded then nonce else Base64EncodeToString nonce in
  let issuerSignatureResult :=
    if issuerSignatureEncoded then issuerSignature
    else Base64EncodeToString issuerSignature in
  let certifierSignatureResult :=
    if certifierSignatureEncoded then certifierSignature
    else Base64EncodeToString certifierSignature in
  let payloadResult := if payloadEncoded then payload else Base64EncodeToString payload in
  mkPermanentEncryptedOperation
    (mkPermanentEncryptionFields encrypted keyId nonceResult)
    (mkPermanentAuthenticationFields issuerSignatureResult)
    (mkPermanentAuthenticationFields certifierSignatureResult)
    (mkPermanentMetaFields requestType)
    payloadResult.

(** [GeneratePermanentEncryptedOperationWithEncryption].  Each hook
    returns the signature to use and whether it is already encoded;
    calling a nil hook panics. *)
Definition GeneratePermanentEncryptedOperationWithEncryption `{SignPrims}
    (keyId permanentKey permanentNonce : string) (requestType : Z)
    (plainPayload : string)
    (modifyIssuerSignature modifyCertifierSignature : option (string -> string * bool))
    (rnd : Rand)
  : outcome (PermanentEncryptedOperation * option PrivateKey * option PrivateKey) :=
  let aead := NewAead permanentKey in
  let ciphertextPayload := SymmetricEncrypt aead "" permanentNonce plainPayload in
  let plainPayloadHashed := Hash plainPayload in
  let '(issuerKey, rnd) := generatePrivateKey rnd in
  let '(certifierKey, rnd) := generatePrivateKey rnd in
  let '(issuerSignature, rnd) := Sign issuerKey plainPayloadHashed rnd in
  match modifyIssuerSignature with
  | None => Panic
  | Some issuerHook =>
      let '(issuerSignature, issuerSignatureEncoded) := issuerHook issuerSignature in
      let '(certifierSignature, _) := Sign certifierKey plainPayloadHashed rnd in
      match modifyCertifierSignature with
      | None => Panic
      | Some certifierHook =>
          let '(certifierSignature, certifierSignatureEncoded) :=
            certifierHook certifierSignature in
          Ok (GeneratePermanentEncryptedOperation true keyId permanentNonce false
                issuerSignature issuerSignatureEncoded
                certifierSignature certifierSignatureEncoded
                requestType ciphertextPayload false,
              issuerKey, certifierKey)
      end
  end.

(** *** The helpers of crypto_test.go *)

Definition generateTemporaryEncryptedOperation `{CorePrims}
    (encrypted : bool) (challenges : gmap string string) (nonce payload : string)
  : TemporaryEncryptedOperation :=
  mkTemporaryEncryptedOperation (1, -1)%Z
    (mkTemporaryEncryptionFields encrypted challenges (Base64EncodeToString nonce))
    (Base64EncodeToString payload).

Definition generatePermanentEncryptedOperation `{CorePrims}
    (encrypted : bool) (keyId nonce issuerSignature certifierSignature : string)
    (requestType : Z) (payload : string) : PermanentEncryptedOperation :=
  mkPermanentEncryptedOperation
    (mkPermanentEncryptionFields encrypted keyId (Base64EncodeToString nonce))
    (mkPermanentAuthenticationFields (Base64EncodeToString issuerSignature))
    (mkPermanentAuthenticationFields (Base64EncodeToString certifierSignature))
    (mkPermanentMetaFields requestType)
    (Base64EncodeToString payload).

Definition generatePermanentEncryptedOperationWithEncryption `{SignPrims}
    (keyId permanentKey : string) (requestType : Z) (plainPayload : string)
    (rnd : Rand) : PermanentEncryptedOperation :=
  let '(permanentNonce, rnd) := generateRandomBytes SymmetricNonceSize rnd in
  let aead := NewAead permanentKey in
  let ciphertextPayload := SymmetricEncrypt aead "" permanentNonce plainPayload in
  let plainPayloadHashed := Hash plainPayload in
  let '(issuerKey, rnd) := generatePrivateKey rnd in
  let '(certifierKey, rnd) := generatePrivateKey rnd in
  let '(issuerSignature, rnd) := Sign issuerKey plainPayloadHashed rnd in
  let '(certifierSignature, _) := Sign certifierKey plainPayloadHashed rnd in
  generatePermanentEncryptedOperation true keyId permanentNonce
    issuerSignature certifierSignature requestType ciphertextPayload.

(** The hook that leaves a signature as it is, not yet encoded. *)
Definition keepSignature (signature : string) : string * bool := (signature, false).

(** Toy [Hash] and [Sign] over the toy primitives. *)
Definition toySignPrims : @SignPrims toyCorePrims :=
  @Build_SignPrims toyCorePrims
    (fun payload => "h(" ++ payload ++ ")")
    (fun key digest (rnd : nat) =>
       (match key with Some _ => "sig(" ++ digest ++ ")" | None => "" end, S rnd)).

(** ** Package main: the startup utilities *)

(** [TerminationCause] is an [int]; the constants are numbered by
    [iota]. *)
Definition TerminationCause : Type := Z.

Definition NoTermination : TerminationCause := 0%Z.
Definition FatalError : TerminationCause := 1%Z.
Definition UserInterrupted : TerminationCause := 2%Z.
Definition SystemTerminated : TerminationCause := 3%Z.

Definition terminationCauseMessageMapping : gmap Z string :=
  <[ SystemTerminated := "Detected system termination" ]>
    (<[ UserInterrupted := "Detected user interruption" ]>
       (<[ FatalError := "Fatal runtime error occured" ]> ∅)).

(** An [os.Signal] is its signal number ([syscall.Signal]);
    [os.Interrupt] is [syscall.SIGINT]. *)
Definition Signal : Type := Z.

Definition SIGHUP : Signal := 1%Z.
Definition SIGINT : Signal := 2%Z.
Definition SIGQUIT : Signal := 3%Z.
Definition SIGTERM : Signal := 15%Z.
Definition os_Interrupt : Signal := SIGINT.

(** The literal of [signalMapping] names the key [SIGINT] twice
    ([os.Interrupt], a variable, and the constant [syscall.SIGINT]),
    with different causes.  Which entry is stored last is the
    compiler's choice: the entries in the order of the source, or the
    entries with constant keys first. *)
Inductive literalOrder : Type :=
  | SourceOrder
  | ConstantKeysFirst.

Definition signalMapping (o : literalOrder) : gmap Z TerminationCause :=
  match o with
  | SourceOrder =>
      <[ SIGQUIT := SystemTerminated ]>
        (<[ SIGTERM := SystemTerminated ]>
           (<[ SIGINT := SystemTerminated ]>
              (<[ SIGHUP := SystemTerminated ]>
                 (<[ os_Interrupt := UserInterrupted ]> ∅))))
  | ConstantKeysFirst =>
      <[ os_Interrupt := UserInterrupted ]>
        (<[ SIGQUIT := SystemTerminated ]>
           (<[ SIGTERM := SystemTerminated ]>
              (<[ SIGINT := SystemTerminated ]>
                 (<[ SIGHUP := SystemTerminated ]> ∅))))
  end.

(** [signalMapping[sig]]: the zero value [NoTermination] for a missing
    key. *)
Definition mapSystemSignal (o : literalOrder) (sig : Signal) : TerminationCause :=
  default NoTermination (signalMapping o !! sig).

Definition isTerminal (terminationCause : TerminationCause) : bool :=
  negb (terminationCause =? NoTermination)%Z.

(** [listenForSystemTermination]: what the goroutine sends on the
    termination channel for the signals it receives, in order. *)
Definition listenForSystemTermination (o : literalOrder) (signals : list Signal)
  : list TerminationCause :=
  map (mapSystemSignal o) signals.

(** The loop of [listenForTermination] over the causes it receives, in
    order: it returns at the first terminal cause, with the message it
    logs (the empty string when the cause has no message); [None]: the
    loop has not returned after these causes. *)
Fixpoint listenForTerminationLoop (received : list TerminationCause) : option string :=
  match received with
  | [] => None
  | terminationCause :: rest =>
      if isTerminal terminationCause
      then Some (default "" (terminationCauseMessageMapping !! terminationCause))
      else listenForTerminationLoop rest
  end.

(** [listenForTermination] as [shutdownWhenSignaled] calls it: the
    channel is made there and handed to nobody else, so the causes
    received are those the signal goroutine sends. *)
Definition listenForTermination (o : literalOrder) (signals : list Signal)
  : option string :=
  listenForTerminationLoop (listenForSystemTermination o signals).

(** [shutdownWhenSignaled]: the message logged and the exit status,
    once the listener has returned. *)
Definition shutdownWhenSignaled (o : literalOrder) (signals : list Signal)
  : option (string * Z) :=
  match listenForTermination o signals with
  | Some message => Some (message, 1%Z)
  | None => None
  end.

(** The signals [signalMapping] has an entry for. *)
Definition handledSignals : list Signal := [SIGHUP; SIGINT; SIGQUIT; SIGTERM].

(** The text of a signature in the operation: as the hook returned it
    when the hook says it is encoded, its base64 text otherwise. *)
Definition signatureText `{CorePrims} (hooked : string * bool) : string :=
  if snd hooked then fst hooked else Base64EncodeToString (fst hooked).

(** A second toy library, in which the texts ["A"] and ["B"] hold the
    same bytes under different labels, ["B"] with text after the
    block. *)
Definition labelledPemX509 : PemX509 := {|
  pem_EncodeToMemory b := "A";
  pem_Decode s :=
    if String.eqb s "A" then (Some (mkBlock "RSA PUBLIC KEY" ∅ "rsa"), "")
    else if String.eqb s "B" then (Some (mkBlock "CERTIFICATE" ∅ "rsa"), "trailing text")
    else (None, s);
  x509_MarshalPKIXPublicKey := @x509_MarshalPKIXPublicKey toyPemX509;
  x509_ParsePKIXPublicKey := @x509_ParsePKIXPublicKey toyPemX509
|}.

(** *** More concrete requests *)

(** The record after a sequence of requests (the record itself when a
    call panics). *)
Definition runRequests (r : userRecord) (reqs : list UserRequest) : userRecord :=
  default r (applyRequests r reqs).

Definition earlyRequest : UserRequest := boolRequest ["active"] false 1.

Definition lateRequest : UserRequest :=
  boolRequest ["active"; "permissions.user.add"] true 2.

(** ** One leaf seen alone *)

(** What a request does to the state (timestamp and value) of the leaf
    [p], as a last-writer-wins register: a request that names the leaf
    with a strictly later timestamp overwrites it with the value it
    carries for the leaf. *)
Definition leafStep (p : leafPath) (s : Time * option leafValue) (req : UserRequest)
  : Time * option leafValue :=
  if names (FieldsUpdated req) p && After (Timestamp req) (fst s)
  then (Timestamp req, reqLeaf req p)
  else s.

(** * Properties of the merge engine *)

(** ** Proof automation *)

(** Case analysis on all the fields of a record. *)
Ltac destruct_record r :=
  destruct r as [? ? ? [[? ?] [? ? ? ? ? ?] ?] ? ? ?].

Ltac leaf_cases p v r :=
  destruct p as [ | | | | [ | | | | ] ]; destruct v; simpl in *; try contradiction;
  destruct_record r; simpl in *.

(** Arithmetic on chains of [Z.max]: split [max a b <= t] into its
    atoms, and prove [t = max ...] from them. *)
Ltac max_atoms H :=
  repeat match type of H with
         | (Z.max _ _ <= _)%Z => apply Z.max_lub_iff in H; destruct H as [? H]
         end.

Ltac max_is :=
  apply Z.le_antisymm;
  [ rewrite !Z.max_le_iff; lia | rewrite ?Z.max_lub_iff; lia ].

(** ** The loop body is the specification's ApplyFieldUpdate on the
    resolved leaf *)

Lemma applyField_spec (r : userRecord) (req : UserRequest) (field : string) :
  applyField r req field =
  match resolve field with
  | None => Some (r, false)
  | Some p =>
      match reqLeaf req p with
      | None => None
      | Some v => Some (ApplyFieldUpdate r p v (Timestamp req))
      end
  end.
Proof.
  unfold applyField, resolve, isUserPermField, userPermCase, ApplyFieldUpdate,
    booleanRecord_update, keyRecord_update.
  repeat
    (match goal with
     | |- context [String.eqb field ?s] => destruct (String.eqb_spec field s) as [->|?]
     end; simpl;
     [ try destruct (encKeyObject (Data req)); try destruct (signKeyObject (Data req));
       simpl; try reflexivity;
       match goal with |- context [After ?a ?b] => destruct (After a b) end;
       destruct_record r; reflexivity | ]).
  reflexivity.
Qed.

(** ** What an accepted update writes *)

Lemma reqLeaf_wellTyped (req : UserRequest) (p : leafPath) (v : leafValue) :
  reqLeaf req p = Some v -> wellTyped p v.
Proof.
  destruct p; simpl; intros Hv;
    try destruct (encKeyObject (Data req)); try destruct (signKeyObject (Data req));
    simplify_eq/=; exact I.
Qed.

Lemma acceptLeaf_same (r : userRecord) (p : leafPath) (v : leafValue) (t : Time) :
  wellTyped p v ->
  leafTime (acceptLeaf r p v t) p = t /\ leafVal (acceptLeaf r p v t) p = v.
Proof. intros Hty. leaf_cases p v r; split; reflexivity. Qed.

Lemma acceptLeaf_other (r : userRecord) (p q : leafPath) (v : leafValue) (t : Time) :
  q <> p ->
  leafTime (acceptLeaf r p v t) q = leafTime r q
  /\ leafVal (acceptLeaf r p v t) q = leafVal r q.
Proof.
  intros Hne.
  destruct q as [ | | | | [ | | | | ] ];
    destruct p as [ | | | | [ | | | | ] ]; try congruence;
    destruct v; destruct_record r; split; reflexivity.
Qed.

Lemma acceptLeaf_container (r : userRecord) (p : leafPath) (v : leafValue) (t : Time)
    (c : container) :
  containerTime (acceptLeaf r p v t) c =
  if isAncestor c p then t else containerTime r c.
Proof.
  destruct c; destruct p as [ | | | | [ | | | | ] ]; destruct v; destruct_record r;
    reflexivity.
Qed.

Lemma After_true (t u : Time) : After t u = true <-> (u < t)%Z.
Proof. unfold After. apply Z.ltb_lt. Qed.

Lemma After_false (t u : Time) : After t u = false <-> (t <= u)%Z.
Proof. unfold After. apply Z.ltb_ge. Qed.

(** The state of a leaf after [ApplyFieldUpdate] on it. *)
Lemma ApplyFieldUpdate_same (r : userRecord) (p : leafPath) (v : leafValue) (t : Time) :
  wellTyped p v ->
  let r' := fst (ApplyFieldUpdate r p v t) in
  if After t (leafTime r p)
  then leafTime r' p = t /\ leafVal r' p = v
  else r' = r.
Proof.
  intros Hty. unfold ApplyFieldUpdate. simpl.
  destruct (After t (leafTime r p)); simpl; [ by apply acceptLeaf_same | done ].
Qed.

(** Every other leaf keeps its state. *)
Lemma ApplyFieldUpdate_other (r : userRecord) (p q : leafPath) (v : leafValue) (t : Time) :
  q <> p ->
  let r' := fst (ApplyFieldUpdate r p v t) in
  leafTime r' q = leafTime r q /\ leafVal r' q = leafVal r q.
Proof.
  intros Hne. unfold ApplyFieldUpdate. simpl.
  destruct (After t (leafTime r p)); simpl; [ by apply acceptLeaf_other | done ].
Qed.

(** The timestamp of a leaf never goes back, and after an update at [t]
    the updated leaf is at or after [t]. *)
Lemma ApplyFieldUpdate_mono (r : userRecord) (p q : leafPath) (v : leafValue) (t : Time) :
  wellTyped p v ->
  (leafTime r q <= leafTime (fst (ApplyFieldUpdate r p v t)) q)%Z.
Proof.
  intros Hty. destruct (decide (q = p)) as [->|Hne].
  - pose proof (ApplyFieldUpdate_same r p v t Hty) as H. simpl in H.
    destruct (After t (leafTime r p)) eqn:E.
    + destruct H as [-> _]. apply After_true in E. lia.
    + rewrite H. lia.
  - destruct (ApplyFieldUpdate_other r p q v t Hne) as [-> _]. lia.
Qed.

Lemma ApplyFieldUpdate_settles (r : userRecord) (p : leafPath) (v : leafValue) (t : Time) :
  wellTyped p v ->
  (t <= leafTime (fst (ApplyFieldUpdate r p v t)) p)%Z.
Proof.
  intros Hty. pose proof (ApplyFieldUpdate_same r p v t Hty) as H. simpl in H.
  destruct (After t (leafTime r p)) eqn:E.
  - destruct H as [-> _]. lia.
  - rewrite H. by apply After_false.
Qed.

Lemma ApplyFieldUpdate_accepted (r : userRecord) (p : leafPath) (v : leafValue) (t : Time) :
  snd (ApplyFieldUpdate r p v t) = After t (leafTime r p).
Proof. unfold ApplyFieldUpdate. by destruct (After t (leafTime r p)). Qed.

(** ** Unknown paths *)

Lemma resolve_None (field : string) :
  resolve field = None <-> field ∉ recognizedPaths.
Proof.
  unfold resolve, recognizedPaths.
  repeat
    (match goal with
     | |- context [String.eqb field ?s] => destruct (String.eqb_spec field s) as [->|?]
     end; [ split; [ discriminate | intros Hn; exfalso; apply Hn; set_solver ] | ]).
  split; [ intros _ | done ].
  rewrite !elem_of_cons, elem_of_nil. tauto.
Qed.

Lemma resolve_inj (f g : string) (p : leafPath) :
  resolve f = Some p -> resolve g = Some p -> f = g.
Proof.
  unfold resolve.
  repeat
    (match goal with
     | |- context [String.eqb f ?s] => destruct (String.eqb_spec f s) as [->|?]
     end; [ intros [= <-];
            repeat
              (match goal with
               | |- context [String.eqb g ?s] =>
                   destruct (String.eqb_spec g s) as [->|?]
               end; [ first [ reflexivity | discriminate ] | ]);
            discriminate | ]).
  discriminate.
Qed.

(** ** C2: a leaf accepts exactly the strictly later timestamps *)

(** C2.  For a [booleanRecord] and for a [keyRecord], every candidate
    value and every candidate timestamp: [update] returns [true] if and
    only if the timestamp is strictly after the field's [UpdatedAt]; it
    then writes the value and the timestamp; otherwise, in particular on
    an equal timestamp, it returns [false] and leaves the field as it
    was. *)
Theorem update_accepts_iff_strictly_after :
  (forall (perm : booleanRecord) (val : bool) (time : Time),
      (snd (booleanRecord_update perm val time) = true
       <-> (br_UpdatedAt perm < time)%Z)
      /\ ((br_UpdatedAt perm < time)%Z ->
          booleanRecord_update perm val time = (mkBooleanRecord val time, true))
      /\ ((time <= br_UpdatedAt perm)%Z ->
          booleanRecord_update perm val time = (perm, false)))
  /\ (forall (keyRec : keyRecord) (val : PublicKey) (time : Time),
      (snd (keyRecord_update keyRec val time) = true
       <-> (kr_UpdatedAt keyRec < time)%Z)
      /\ ((kr_UpdatedAt keyRec < time)%Z ->
          keyRecord_update keyRec val time = (mkKeyRecord val time, true))
      /\ ((time <= kr_UpdatedAt keyRec)%Z ->
          keyRecord_update keyRec val time = (keyRec, false))).
Proof.
  split.
  - intros perm val time. unfold booleanRecord_update.
    destruct (After time (br_UpdatedAt perm)) eqn:E.
    + apply After_true in E. simpl. repeat split; intros; try done; lia.
    + apply After_false in E. simpl. repeat split; intros; try done; lia.
  - intros keyRec val time. unfold keyRecord_update.
    destruct (After time (kr_UpdatedAt keyRec)) eqn:E.
    + apply After_true in E. simpl. repeat split; intros; try done; lia.
    + apply After_false in E. simpl. repeat split; intros; try done; lia.
Qed.

(** ** C1: the roll-up timestamps *)

(** One accepted or rejected leaf update keeps the roll-up invariant
    when its timestamp is not before the record's [UpdatedAt]. *)
Lemma ApplyFieldUpdate_rollup (r : userRecord) (p : leafPath) (v : leafValue) (t : Time) :
  wellTyped p v ->
  rollup_inv r -> (UpdatedAt r <= t)%Z ->
  rollup_inv (fst (ApplyFieldUpdate r p v t))
  /\ (UpdatedAt (fst (ApplyFieldUpdate r p v t)) <= t)%Z.
Proof.
  intros Hty Hinv Hle. unfold ApplyFieldUpdate.
  destruct (After t (leafTime r p)) eqn:E; simpl; [ | done ].
  apply After_true in E. revert Hty Hinv Hle E.
  unfold rollup_inv, descendantsMax, userLeavesMax.
  destruct p as [ | | | | [ | | | | ] ]; destruct v; try (intros []; fail);
    destruct_record r; cbn; intros _ (H1 & H2 & H3 & H4) Hle E; subst;
    max_atoms Hle;
    repeat split; first [ reflexivity | max_is | lia ].
Qed.

(** An accepted update sets every container on the path from the leaf
    to the root to the request's timestamp, and no other container. *)
Lemma applyField_accepted_ancestors (r r' : userRecord) (req : UserRequest)
    (field : string) (p : leafPath) (c : container) :
  resolve field = Some p ->
  applyField r req field = Some (r', true) ->
  leafTime r' p = Timestamp req
  /\ containerTime r' c = if isAncestor c p then Timestamp req else containerTime r c.
Proof.
  intros Hp. rewrite applyField_spec, Hp.
  destruct (reqLeaf req p) as [v|] eqn:Hv; [ | discriminate ].
  unfold ApplyFieldUpdate.
  destruct (After (Timestamp req) (leafTime r p)); intros [= <-].
  split; [ apply acceptLeaf_same; by eapply reqLeaf_wellTyped | apply acceptLeaf_container ].
Qed.

Lemma applyField_rollup (r r' : userRecord) (req : UserRequest) (field : string) (ok : bool) :
  rollup_inv r -> (UpdatedAt r <= Timestamp req)%Z ->
  applyField r req field = Some (r', ok) ->
  rollup_inv r' /\ (UpdatedAt r' <= Timestamp req)%Z.
Proof.
  intros Hinv Hle. rewrite applyField_spec.
  destruct (resolve field) as [p|]; [ | by intros [= <- _] ].
  destruct (reqLeaf req p) as [v|] eqn:Hv; [ | discriminate ].
  intros [= Hr].
  assert (r' = fst (ApplyFieldUpdate r p v (Timestamp req))) as -> by (by rewrite Hr).
  apply ApplyFieldUpdate_rollup; [ by eapply reqLeaf_wellTyped | done | done ].
Qed.

Lemma applyFields_rollup (req : UserRequest) (fields : list string) (r r' : userRecord) :
  rollup_inv r -> (UpdatedAt r <= Timestamp req)%Z ->
  applyFields r req fields = Some r' ->
  rollup_inv r' /\ (UpdatedAt r' <= Timestamp req)%Z.
Proof.
  revert r. induction fields as [|f rest IH]; intros r Hinv Hle; simpl.
  - by intros [= <-].
  - destruct (applyField r req f) as [[r1 ok]|] eqn:E; [ | discriminate ].
    destruct (applyField_rollup _ _ _ _ _ Hinv Hle E) as [Hinv1 Hle1].
    by apply IH.
Qed.

Lemma applyRequests_rollup (reqs : list UserRequest) (r r' : userRecord) :
  rollup_inv r -> ascending (UpdatedAt r) reqs ->
  applyRequests r reqs = Some r' ->
  rollup_inv r'.
Proof.
  revert r. induction reqs as [|req rest IH]; intros r Hinv Hasc; simpl.
  - by intros [= <-].
  - destruct Hasc as [Hle Hasc].
    destruct (applyUpdateRequest r req) as [r1|] eqn:E; [ | discriminate ].
    destruct (applyFields_rollup _ _ _ _ Hinv Hle E) as [Hinv1 Hle1].
    apply IH; [ done | ].
    destruct rest as [|req2 rest2]; simpl in *; [ done | ].
    destruct Hasc as [H2 Hasc]. split; [ lia | done ].
Qed.

Lemma ascending_take (reqs : list UserRequest) (t : Time) (n : nat) :
  ascending t reqs -> ascending t (take n reqs).
Proof.
  revert t n. induction reqs as [|req rest IH]; intros t [|n]; simpl; try done.
  intros [Hle Hasc]. split; [ done | by apply IH ].
Qed.

(** C1 (amended).  For every record on which the roll-up invariant
    holds and every sequence of [applyUpdateRequest] calls whose
    timestamps never go back (the first is not before the record's
    [UpdatedAt], each next one not before the previous), after each
    call of the sequence every container's [UpdatedAt] is the maximum
    [UpdatedAt] among its descendant leaves. *)
Theorem rollup_preserved_in_timestamp_order
    (r : userRecord) (reqs : list UserRequest) (n : nat) (r' : userRecord) :
  rollup_inv r ->
  ascending (UpdatedAt r) reqs ->
  applyRequests r (take n reqs) = Some r' ->
  rollup_inv r'.
Proof.
  intros Hinv Hasc Hrun.
  eapply applyRequests_rollup; [ exact Hinv | | exact Hrun ].
  by apply ascending_take.
Qed.

Lemma rollup_preserved_in_timestamp_order_witness :
  rollup_inv
    (default (freshRecord 0)
       (applyRequests (freshRecord 0)
          [ boolRequest ["active"] true 5;
            boolRequest ["permissions.user.add"; "bogus"] true 7 ])).
Proof.
  apply (rollup_preserved_in_timestamp_order (freshRecord 0)
           [ boolRequest ["active"] true 5;
             boolRequest ["permissions.user.add"; "bogus"] true 7 ] 2).
  - vm_compute. repeat split; reflexivity.
  - simpl. lia.
  - vm_compute. reflexivity.
Defined.

(** C1 as stated fails: on a record that satisfies the invariant, an
    accepted update of [permissions.channel.add] at 5 sets the root's
    [UpdatedAt] to 5 although [Active] was written at 10. *)
Lemma rollup_broken_by_earlier_timestamp :
  rollup_inv laterSiblingRecord
  /\ exists r' : userRecord,
      applyUpdateRequest laterSiblingRecord
        (boolRequest ["permissions.channel.add"] true 5) = Some r'
      /\ acceptedFields laterSiblingRecord
           (boolRequest ["permissions.channel.add"] true 5)
           ["permissions.channel.add"] = ["permissions.channel.add"]
      /\ containerTime r' CRoot = 5%Z
      /\ descendantsMax r' CRoot = 10%Z
      /\ ~ rollup_inv r'.
Proof.
  split; [ vm_compute; repeat split; reflexivity | ].
  eexists. split; [ vm_compute; reflexivity | ].
  split; [ vm_compute; reflexivity | ].
  split; [ reflexivity | ].
  split; [ reflexivity | ].
  intros [H _]. vm_compute in H. discriminate H.
Qed.

(** ** The loop over the named fields *)

Lemma applyField_unknown (r : userRecord) (req : UserRequest) (field : string) :
  field ∉ recognizedPaths -> applyField r req field = Some (r, false).
Proof. intros H. apply resolve_None in H. by rewrite applyField_spec, H. Qed.

Lemma applyField_known (r r' : userRecord) (req : UserRequest) (field : string)
    (p : leafPath) (ok : bool) :
  resolve field = Some p ->
  applyField r req field = Some (r', ok) ->
  exists v, reqLeaf req p = Some v /\ wellTyped p v
            /\ (r', ok) = ApplyFieldUpdate r p v (Timestamp req).
Proof.
  intros Hp. rewrite applyField_spec, Hp.
  destruct (reqLeaf req p) as [v|] eqn:Hv; [ | discriminate ].
  intros [= Hr]. exists v. split; [ done | ]. split; [ by eapply reqLeaf_wellTyped | ].
  by rewrite Hr.
Qed.

Lemma applyField_stale (r : userRecord) (req : UserRequest) (field : string) :
  unknownOrStale r req field -> applyField r req field = Some (r, false).
Proof.
  intros [Hu | (p & Hp & [v Hv] & Hle)]; [ by apply applyField_unknown | ].
  rewrite applyField_spec, Hp, Hv. unfold ApplyFieldUpdate.
  apply After_false in Hle. by rewrite Hle.
Qed.

Lemma applyField_mono (r r' : userRecord) (req : UserRequest) (field : string)
    (ok : bool) (q : leafPath) :
  applyField r req field = Some (r', ok) ->
  (leafTime r q <= leafTime r' q)%Z.
Proof.
  intros H. destruct (resolve field) as [p|] eqn:Hp.
  - destruct (applyField_known _ _ _ _ _ _ Hp H) as (v & _ & Hty & Hr).
    replace r' with (fst (ApplyFieldUpdate r p v (Timestamp req))) by (by rewrite <- Hr).
    by apply ApplyFieldUpdate_mono.
  - rewrite applyField_spec, Hp in H. injection H as <- _. lia.
Qed.

Lemma applyField_settles (r r' : userRecord) (req : UserRequest) (field : string)
    (ok : bool) (p : leafPath) :
  resolve field = Some p ->
  applyField r req field = Some (r', ok) ->
  is_Some (reqLeaf req p) /\ (Timestamp req <= leafTime r' p)%Z.
Proof.
  intros Hp H.
  destruct (applyField_known _ _ _ _ _ _ Hp H) as (v & Hv & Hty & Hr).
  split; [ by exists v | ].
  replace r' with (fst (ApplyFieldUpdate r p v (Timestamp req))) by (by rewrite <- Hr).
  by apply ApplyFieldUpdate_settles.
Qed.

Lemma applyFields_mono (req : UserRequest) (fields : list string) (r r' : userRecord)
    (q : leafPath) :
  applyFields r req fields = Some r' -> (leafTime r q <= leafTime r' q)%Z.
Proof.
  revert r. induction fields as [|f rest IH]; intros r; simpl.
  - intros [= <-]. lia.
  - destruct (applyField r req f) as [[r1 ok]|] eqn:E; [ | discriminate ].
    intros H. pose proof (applyField_mono _ _ _ _ _ q E). specialize (IH _ H). lia.
Qed.

(** After the loop every named leaf is at or after the timestamp of the
    request. *)
Lemma applyFields_settles (req : UserRequest) (fields : list string) (r r' : userRecord) :
  applyFields r req fields = Some r' ->
  forall f, f ∈ fields -> unknownOrStale r' req f.
Proof.
  revert r. induction fields as [|f rest IH]; intros r; simpl.
  - intros _ g Hg. by apply elem_of_nil in Hg.
  - destruct (applyField r req f) as [[r1 ok]|] eqn:E; [ | discriminate ].
    intros H g Hg. apply elem_of_cons in Hg as [-> | Hg]; [ | by eapply IH ].
    destruct (resolve f) as [p|] eqn:Hp; [ | left; by apply resolve_None ].
    right. exists p. destruct (applyField_settles _ _ _ _ _ _ Hp E) as [Hv Hle].
    split; [ done | ]. split; [ done | ].
    pose proof (applyFields_mono _ _ _ _ p H). lia.
Qed.

(** A loop over unknown or stale names changes nothing and accepts
    nothing. *)
Lemma applyFields_stale (req : UserRequest) (fields : list string) (r : userRecord) :
  (forall f, f ∈ fields -> unknownOrStale r req f) ->
  applyFields r req fields = Some r /\ acceptedFields r req fields = [].
Proof.
  induction fields as [|f rest IH]; intros Hall; simpl; [ done | ].
  rewrite (applyField_stale r req f) by (apply Hall; left). simpl.
  apply IH. intros g Hg. apply Hall. by right.
Qed.

(** The loop panics only on a named key path whose key object is nil. *)
Lemma applyFields_panic (req : UserRequest) (fields : list string) (r : userRecord) :
  applyFields r req fields = None ->
  ("encKey" ∈ fields /\ encKeyObject (Data req) = None)
  \/ ("signKey" ∈ fields /\ signKeyObject (Data req) = None).
Proof.
  revert r. induction fields as [|f rest IH]; intros r; simpl; [ discriminate | ].
  destruct (applyField r req f) as [[r1 ok]|] eqn:E.
  - intros H. destruct (IH _ H) as [[? ?]|[? ?]]; [ left | right ];
      (split; [ by right | done ]).
  - intros _. rewrite applyField_spec in E.
    destruct (resolve f) as [p|] eqn:Hp; [ | discriminate ].
    destruct (reqLeaf req p) eqn:Hv; [ discriminate | ].
    destruct p; simpl in Hv; try discriminate.
    + left. rewrite (resolve_inj f "encKey" LEncKey Hp eq_refl).
      split; [ by left | by destruct (encKeyObject (Data req)) ].
    + right. rewrite (resolve_inj f "signKey" LSignKey Hp eq_refl).
      split; [ by left | by destruct (signKeyObject (Data req)) ].
Qed.

Lemma applyField_other (r r' : userRecord) (req : UserRequest) (field : string)
    (ok : bool) (p : leafPath) :
  resolve field <> Some p ->
  applyField r req field = Some (r', ok) ->
  leafTime r' p = leafTime r p /\ leafVal r' p = leafVal r p.
Proof.
  intros Hne H. destruct (resolve field) as [q|] eqn:Hq.
  - destruct (applyField_known _ _ _ _ _ _ Hq H) as (v & _ & Hty & Hr).
    replace r' with (fst (ApplyFieldUpdate r q v (Timestamp req))) by (by rewrite <- Hr).
    apply ApplyFieldUpdate_other. congruence.
  - rewrite applyField_spec, Hq in H. by injection H as <- _.
Qed.

Lemma applyField_same (r r' : userRecord) (req : UserRequest) (field : string)
    (ok : bool) (p : leafPath) :
  resolve field = Some p ->
  applyField r req field = Some (r', ok) ->
  ok = After (Timestamp req) (leafTime r p)
  /\ if ok
     then leafTime r' p = Timestamp req /\ Some (leafVal r' p) = reqLeaf req p
     else r' = r.
Proof.
  intros Hp H.
  destruct (applyField_known _ _ _ _ _ _ Hp H) as (v & Hv & Hty & Hr).
  pose proof (ApplyFieldUpdate_same r p v (Timestamp req) Hty) as Hs.
  pose proof (ApplyFieldUpdate_accepted r p v (Timestamp req)) as Ha.
  rewrite <- Hr in Hs, Ha. simpl in Hs, Ha. subst ok. split; [ done | ].
  destruct (After (Timestamp req) (leafTime r p)); [ | done ].
  destruct Hs as [-> ->]. by rewrite Hv.
Qed.

(** The state of every leaf after the loop: a leaf that is named and
    whose [UpdatedAt] is strictly before the request's timestamp takes
    the request's value and timestamp; every other leaf is unchanged. *)
Lemma applyFields_leaves (req : UserRequest) (fields : list string) (r r' : userRecord)
    (p : leafPath) :
  applyFields r req fields = Some r' ->
  if names fields p && After (Timestamp req) (leafTime r p)
  then leafTime r' p = Timestamp req /\ Some (leafVal r' p) = reqLeaf req p
  else leafTime r' p = leafTime r p /\ leafVal r' p = leafVal r p.
Proof.
  revert r. induction fields as [|f rest IH]; intros r; simpl.
  - by intros [= <-].
  - destruct (applyField r req f) as [[r1 ok]|] eqn:E; [ | discriminate ].
    intros H. specialize (IH _ H). case_bool_decide as Hp; simpl.
    + destruct (applyField_same _ _ _ _ _ _ Hp E) as [Hok Hs].
      rewrite <- Hok. destruct ok.
      * destruct Hs as [Ht Hv]. rewrite Ht in IH.
        replace (After (Timestamp req) (Timestamp req)) with false in IH
          by (symmetry; apply After_false; lia).
        rewrite andb_false_r in IH. destruct IH as [-> ->]. done.
      * subst r1. rewrite <- Hok, andb_false_r in IH. done.
    + destruct (applyField_other _ _ _ _ _ _ Hp E) as [Ht Hv].
      rewrite Ht in IH. destruct (names rest p && _); [ done | ].
      destruct IH as [-> ->]. done.
Qed.

(** A leaf that is at or after the request's timestamp is not accepted
    again by the loop. *)
Lemma accepted_not_settled (req : UserRequest) (fields : list string) (r : userRecord)
    (p : leafPath) :
  (Timestamp req <= leafTime r p)%Z ->
  forall g, g ∈ acceptedFields r req fields -> resolve g <> Some p.
Proof.
  revert r. induction fields as [|f rest IH]; intros r Hle g; simpl.
  - intros Hg. by apply elem_of_nil in Hg.
  - destruct (applyField r req f) as [[r1 ok]|] eqn:E;
      [ | intros Hg; by apply elem_of_nil in Hg ].
    intros Hg. apply elem_of_app in Hg as [Hg | Hg].
    + destruct ok; [ | by apply elem_of_nil in Hg ].
      apply list_elem_of_singleton in Hg as ->. intros Hp.
      destruct (applyField_same _ _ _ _ _ _ Hp E) as [Hok _].
      symmetry in Hok. apply After_true in Hok. lia.
    + eapply IH; [ | exact Hg ].
      pose proof (applyField_mono _ _ _ _ _ p E). lia.
Qed.

Lemma accepted_resolves (req : UserRequest) (fields : list string) (r : userRecord) :
  forall g, g ∈ acceptedFields r req fields -> g ∈ fields /\ is_Some (resolve g).
Proof.
  revert r. induction fields as [|f rest IH]; intros r g; simpl.
  - intros Hg. by apply elem_of_nil in Hg.
  - destruct (applyField r req f) as [[r1 ok]|] eqn:E;
      [ | intros Hg; by apply elem_of_nil in Hg ].
    intros Hg. apply elem_of_app in Hg as [Hg | Hg].
    + destruct ok; [ | by apply elem_of_nil in Hg ].
      apply list_elem_of_singleton in Hg as ->. split; [ by left | ].
      destruct (resolve f) as [p|] eqn:Hp; [ by eexists | ].
      rewrite applyField_spec, Hp in E. discriminate.
    + destruct (IH _ _ Hg). split; [ by right | done ].
Qed.

Lemma accepted_leaves_NoDup (req : UserRequest) (fields : list string) (r : userRecord) :
  NoDup (omap resolve (acceptedFields r req fields)).
Proof.
  revert r. induction fields as [|f rest IH]; intros r; simpl; [ constructor | ].
  destruct (applyField r req f) as [[r1 ok]|] eqn:E; [ | constructor ].
  destruct ok; simpl; [ | apply IH ].
  destruct (resolve f) as [p|] eqn:Hp; [ | apply IH ].
  constructor; [ | apply IH ].
  intros Hin. apply list_elem_of_omap in Hin as (g & Hg & Hgp).
  destruct (applyField_same _ _ _ _ _ _ Hp E) as [_ [Ht _]].
  eapply (accepted_not_settled req rest r1 p); [ lia | exact Hg | exact Hgp ].
Qed.

Lemma accepted_leaf_time (req : UserRequest) (fields : list string) (r r' : userRecord)
    (f : string) (p : leafPath) :
  applyFields r req fields = Some r' ->
  f ∈ acceptedFields r req fields -> resolve f = Some p ->
  leafTime r' p = Timestamp req /\ (leafTime r p < Timestamp req)%Z.
Proof.
  intros H Hf Hp.
  pose proof (applyFields_leaves req fields r r' p H) as Hl.
  assert (names fields p = true) as Hn.
  { unfold names. apply existsb_exists. exists f.
    split; [ apply list_elem_of_In; by eapply accepted_resolves | by apply bool_decide_eq_true ]. }
  rewrite Hn in Hl. simpl in Hl.
  destruct (After (Timestamp req) (leafTime r p)) eqn:EA.
  - apply After_true in EA. by destruct Hl.
  - exfalso. apply After_false in EA.
    by eapply (accepted_not_settled req fields r p).
Qed.

(** ** C5: replaying a request *)

Lemma booleanRecord_update_twice (perm : booleanRecord) (val : bool) (time : Time) :
  booleanRecord_update (fst (booleanRecord_update perm val time)) val time
  = (fst (booleanRecord_update perm val time), false).
Proof.
  unfold booleanRecord_update, After.
  destruct (Z.ltb_spec (br_UpdatedAt perm) time) as [Hlt|Hge]; simpl.
  - by rewrite Z.ltb_irrefl.
  - destruct (Z.ltb_spec (br_UpdatedAt perm) time); [ lia | done ].
Qed.

Lemma keyRecord_update_twice (keyRec : keyRecord) (val : PublicKey) (time : Time) :
  keyRecord_update (fst (keyRecord_update keyRec val time)) val time
  = (fst (keyRecord_update keyRec val time), false).
Proof.
  unfold keyRecord_update, After.
  destruct (Z.ltb_spec (kr_UpdatedAt keyRec) time) as [Hlt|Hge]; simpl.
  - by rewrite Z.ltb_irrefl.
  - destruct (Z.ltb_spec (kr_UpdatedAt keyRec) time); [ lia | done ].
Qed.

(** C5.  Applying the identical update twice: the second application
    leaves the record as the first left it and is not accepted.  This
    holds for one field path ([applyField]: the [update] call of the
    second application returns [false]), for a whole request
    ([applyUpdateRequest]: no [update] call of the second application
    returns [true]) and for the two [update] methods themselves. *)
Theorem lww_idempotent (r : userRecord) (req : UserRequest) :
  (forall (field : string) (r1 : userRecord) (ok : bool),
      applyField r req field = Some (r1, ok) ->
      applyField r1 req field = Some (r1, false))
  /\ (forall r1 : userRecord,
      applyUpdateRequest r req = Some r1 ->
      applyUpdateRequest r1 req = Some r1
      /\ acceptedFields r1 req (FieldsUpdated req) = [])
  /\ (forall (perm : booleanRecord) (val : bool),
      booleanRecord_update
        (fst (booleanRecord_update perm val (Timestamp req))) val (Timestamp req)
      = (fst (booleanRecord_update perm val (Timestamp req)), false))
  /\ (forall (keyRec : keyRecord) (val : PublicKey),
      keyRecord_update
        (fst (keyRecord_update keyRec val (Timestamp req))) val (Timestamp req)
      = (fst (keyRecord_update keyRec val (Timestamp req)), false)).
Proof.
  split; [ | split; [ | split ] ].
  - intros field r1 ok H. apply applyField_stale.
    apply (applyFields_settles req [field] r r1); [ simpl; by rewrite H | by left ].
  - intros r1 H. apply applyFields_stale. by eapply applyFields_settles.
  - intros perm val. apply booleanRecord_update_twice.
  - intros keyRec val. apply keyRecord_update_twice.
Qed.

(** An instance: the request is accepted the first time, not the
    second. *)
Example lww_idempotent_run :
  let req := boolRequest ["active"; "permissions.user.remove"] true 5 in
  exists r1,
    applyUpdateRequest (freshRecord 0) req = Some r1
    /\ acceptedFields (freshRecord 0) req (FieldsUpdated req)
       = ["active"; "permissions.user.remove"]
    /\ applyUpdateRequest r1 req = Some r1
    /\ acceptedFields r1 req (FieldsUpdated req) = [].
Proof.
  eexists. split; [ vm_compute; reflexivity | ].
  repeat split; vm_compute; reflexivity.
Qed.

(** ** C7: unknown paths and stale timestamps *)


(** The one failure: a named key path with a nil key object. *)
Example nil_key_object_panics :
  applyUpdateRequest (freshRecord 0) (boolRequest ["active"; "encKey"] true 5) = None
  /\ nilKeyNamed (boolRequest ["active"; "encKey"] true 5).
Proof.
  split; [ reflexivity | ]. left. split; [ | reflexivity ].
  simpl. rewrite !elem_of_cons. tauto.
Qed.

(** An instance: two unknown paths and a stale one. *)
Example unknown_and_stale_run :
  applyUpdateRequest laterSiblingRecord
    (boolRequest ["activ"; "permissions.channel.remove"; "active"] false 10)
  = Some laterSiblingRecord.
Proof. vm_compute. reflexivity. Qed.

(** ** C8: a rejected field is untouched and hinders no other field *)

(** C8.  After a request, a named leaf whose [UpdatedAt] was strictly
    before the request's timestamp holds the request's value and
    timestamp, whatever happened to the other named paths; every other
    leaf, in particular every rejected one, has its value and
    [UpdatedAt] unchanged.  The two [update] methods return the
    receiver unchanged when they return [false]. *)
Theorem rejected_fields_unchanged (r r' : userRecord) (req : UserRequest) :
  applyUpdateRequest r req = Some r' ->
  (forall p : leafPath,
      if names (FieldsUpdated req) p && After (Timestamp req) (leafTime r p)
      then leafTime r' p = Timestamp req /\ Some (leafVal r' p) = reqLeaf req p
      else leafTime r' p = leafTime r p /\ leafVal r' p = leafVal r p)
  /\ (forall (perm : booleanRecord) (val : bool) (time : Time),
      snd (booleanRecord_update perm val time) = false ->
      fst (booleanRecord_update perm val time) = perm)
  /\ (forall (keyRec : keyRecord) (val : PublicKey) (time : Time),
      snd (keyRecord_update keyRec val time) = false ->
      fst (keyRecord_update keyRec val time) = keyRec).
Proof.
  intros H. split; [ | split ].
  - intros p. by apply applyFields_leaves.
  - intros perm val time. unfold booleanRecord_update.
    by destruct (After time (br_UpdatedAt perm)).
  - intros keyRec val time. unfold keyRecord_update.
    by destruct (After time (kr_UpdatedAt keyRec)).
Qed.

(** ** C10: one timestamp for all the paths of a request *)

(** C10.  Every [update] call of a request is made with the request's
    one [Timestamp]: every leaf accepted from the request ends with
    that [UpdatedAt] (and was strictly before it), every leaf ends
    either with that [UpdatedAt] or unchanged, and no leaf is accepted
    twice by one request. *)
Theorem one_timestamp_per_request (r r' : userRecord) (req : UserRequest) :
  applyUpdateRequest r req = Some r' ->
  (forall (field : string) (p : leafPath),
      field ∈ acceptedFields r req (FieldsUpdated req) ->
      resolve field = Some p ->
      leafTime r' p = Timestamp req /\ (leafTime r p < Timestamp req)%Z)
  /\ (forall field : string,
      field ∈ acceptedFields r req (FieldsUpdated req) ->
      field ∈ FieldsUpdated req /\ is_Some (resolve field))
  /\ (forall p : leafPath,
      leafTime r' p = Timestamp req
      \/ (leafTime r' p = leafTime r p /\ leafVal r' p = leafVal r p))
  /\ NoDup (omap resolve (acceptedFields r req (FieldsUpdated req))).
Proof.
  intros H. split; [ | split; [ | split ] ].
  - intros field p. by apply accepted_leaf_time.
  - apply accepted_resolves.
  - intros p. pose proof (applyFields_leaves req _ r r' p H) as Hl.
    destruct (names _ p && _); [ left | right ]; tauto.
  - apply accepted_leaves_NoDup.
Qed.

Lemma rejected_fields_unchanged_witness :
  (leafTime afterMixedRequest LActive = 10%Z
   /\ leafVal afterMixedRequest LActive = VBool true)
  /\ (leafTime afterMixedRequest LChannelAdd = 5%Z
      /\ Some (leafVal afterMixedRequest LChannelAdd) = Some (VBool false)).
Proof.
  assert (applyUpdateRequest laterSiblingRecord mixedRequest = Some afterMixedRequest)
    as H by (vm_compute; reflexivity).
  destruct (rejected_fields_unchanged laterSiblingRecord afterMixedRequest mixedRequest H)
    as [Hl _].
  split; [ exact (Hl LActive) | exact (Hl LChannelAdd) ].
Defined.

Lemma one_timestamp_per_request_witness :
  (leafTime afterMixedRequest LChannelAdd = Timestamp mixedRequest
   /\ (leafTime laterSiblingRecord LChannelAdd < Timestamp mixedRequest)%Z)
  /\ NoDup (omap resolve
              (acceptedFields laterSiblingRecord mixedRequest
                 (FieldsUpdated mixedRequest))).
Proof.
  assert (applyUpdateRequest laterSiblingRecord mixedRequest = Some afterMixedRequest)
    as H by (vm_compute; reflexivity).
  destruct (one_timestamp_per_request laterSiblingRecord afterMixedRequest mixedRequest H)
    as (Ht & _ & _ & Hnd).
  split; [ | exact Hnd ].
  apply (Ht "permissions.channel.add"); [ vm_compute; by left | reflexivity ].
Defined.

(** ** C6: two updates of one leaf, in either order *)

Lemma booleanRecord_update_order (perm : booleanRecord) (v1 v2 : bool) (T1 T2 : Time) :
  (T1 < T2)%Z ->
  fst (booleanRecord_update (fst (booleanRecord_update perm v1 T1)) v2 T2)
  = fst (booleanRecord_update (fst (booleanRecord_update perm v2 T2)) v1 T1)
  /\ fst (booleanRecord_update (fst (booleanRecord_update perm v1 T1)) v2 T2)
     = if After T2 (br_UpdatedAt perm) then mkBooleanRecord v2 T2 else perm.
Proof.
  intros Hlt. unfold booleanRecord_update, After.
  destruct (Z.ltb_spec (br_UpdatedAt perm) T1);
    destruct (Z.ltb_spec (br_UpdatedAt perm) T2); simpl; try lia;
    repeat (match goal with
            | |- context [Z.ltb ?a ?b] => destruct (Z.ltb_spec a b)
            end; simpl); try lia; done.
Qed.

Lemma keyRecord_update_order (keyRec : keyRecord) (v1 v2 : PublicKey) (T1 T2 : Time) :
  (T1 < T2)%Z ->
  fst (keyRecord_update (fst (keyRecord_update keyRec v1 T1)) v2 T2)
  = fst (keyRecord_update (fst (keyRecord_update keyRec v2 T2)) v1 T1)
  /\ fst (keyRecord_update (fst (keyRecord_update keyRec v1 T1)) v2 T2)
     = if After T2 (kr_UpdatedAt keyRec) then mkKeyRecord v2 T2 else keyRec.
Proof.
  intros Hlt. unfold keyRecord_update, After.
  destruct (Z.ltb_spec (kr_UpdatedAt keyRec) T1);
    destruct (Z.ltb_spec (kr_UpdatedAt keyRec) T2); simpl; try lia;
    repeat (match goal with
            | |- context [Z.ltb ?a ?b] => destruct (Z.ltb_spec a b)
            end; simpl); try lia; done.
Qed.

Lemma acceptLeaf_overwrite (r : userRecord) (p : leafPath) (v1 v2 : leafValue)
    (T1 T2 : Time) :
  wellTyped p v1 -> wellTyped p v2 ->
  acceptLeaf (acceptLeaf r p v1 T1) p v2 T2 = acceptLeaf r p v2 T2.
Proof.
  intros H1 H2.
  destruct p as [ | | | | [ | | | | ] ]; destruct v1; try contradiction;
    destruct v2; try contradiction; destruct_record r; reflexivity.
Qed.

(** On the whole record: the later of two updates of one leaf decides,
    in either order. *)
Lemma ApplyFieldUpdate_order (r : userRecord) (p : leafPath) (v1 v2 : leafValue)
    (T1 T2 : Time) :
  wellTyped p v1 -> wellTyped p v2 -> (T1 < T2)%Z ->
  fst (ApplyFieldUpdate (fst (ApplyFieldUpdate r p v1 T1)) p v2 T2)
  = fst (ApplyFieldUpdate r p v2 T2)
  /\ fst (ApplyFieldUpdate (fst (ApplyFieldUpdate r p v2 T2)) p v1 T1)
     = fst (ApplyFieldUpdate r p v2 T2).
Proof.
  intros H1 H2 Hlt. unfold ApplyFieldUpdate.
  destruct (After T1 (leafTime r p)) eqn:E1; destruct (After T2 (leafTime r p)) eqn:E2;
    simpl; rewrite ?E2;
    try (apply After_true in E1); try (apply After_false in E1);
    try (apply After_true in E2); try (apply After_false in E2); try lia.
  - destruct (acceptLeaf_same r p v1 T1 H1) as [-> _].
    destruct (acceptLeaf_same r p v2 T2 H2) as [-> _].
    replace (After T2 T1) with true by (symmetry; apply After_true; lia).
    replace (After T1 T2) with false by (symmetry; apply After_false; lia).
    simpl. split; [ by apply acceptLeaf_overwrite | done ].
  - destruct (acceptLeaf_same r p v2 T2 H2) as [-> _].
    replace (After T1 T2) with false by (symmetry; apply After_false; lia).
    done.
  - replace (After T1 (leafTime r p)) with false by (symmetry; apply After_false; lia).
    done.
Qed.

Lemma applyUpdateRequest_single (r : userRecord) (req : UserRequest) (field : string) :
  FieldsUpdated req = [field] ->
  applyUpdateRequest r req =
  match resolve field with
  | None => Some r
  | Some p =>
      match reqLeaf req p with
      | None => None
      | Some v => Some (fst (ApplyFieldUpdate r p v (Timestamp req)))
      end
  end.
Proof.
  intros Hf. unfold applyUpdateRequest. rewrite Hf. simpl.
  rewrite applyField_spec.
  destruct (resolve field) as [p|]; [ | done ].
  destruct (reqLeaf req p) as [v|]; [ | done ].
  by destruct (ApplyFieldUpdate r p v (Timestamp req)).
Qed.

(** C6 (amended).  Two updates of one leaf with timestamps T1 < T2
    yield the same record in either order.  The leaf ends with the
    value submitted with T2 and [UpdatedAt] T2 when T2 is strictly
    after the leaf's [UpdatedAt] before the two updates; otherwise both
    updates are rejected and the record is unchanged.  The same holds
    for the two [update] methods on a single field. *)
Theorem lww_later_update_wins
    (r : userRecord) (req1 req2 : UserRequest) (field : string) :
  FieldsUpdated req1 = [field] -> FieldsUpdated req2 = [field] ->
  (Timestamp req1 < Timestamp req2)%Z ->
  (applyUpdateRequest r req1 ≫= fun r1 => applyUpdateRequest r1 req2)
  = (applyUpdateRequest r req2 ≫= fun r2 => applyUpdateRequest r2 req1)
  /\ (forall p : leafPath,
      resolve field = Some p ->
      is_Some (reqLeaf req1 p) -> is_Some (reqLeaf req2 p) ->
      exists r' : userRecord,
        (applyUpdateRequest r req1 ≫= fun r1 => applyUpdateRequest r1 req2) = Some r'
        /\ if After (Timestamp req2) (leafTime r p)
           then leafTime r' p = Timestamp req2
                /\ Some (leafVal r' p) = reqLeaf req2 p
           else r' = r)
  /\ (forall (perm : booleanRecord) (v1 v2 : bool),
      fst (booleanRecord_update
             (fst (booleanRecord_update perm v1 (Timestamp req1))) v2 (Timestamp req2))
      = fst (booleanRecord_update
               (fst (booleanRecord_update perm v2 (Timestamp req2))) v1 (Timestamp req1))
      /\ fst (booleanRecord_update
                (fst (booleanRecord_update perm v1 (Timestamp req1))) v2 (Timestamp req2))
         = if After (Timestamp req2) (br_UpdatedAt perm)
           then mkBooleanRecord v2 (Timestamp req2) else perm)
  /\ (forall (keyRec : keyRecord) (v1 v2 : PublicKey),
      fst (keyRecord_update
             (fst (keyRecord_update keyRec v1 (Timestamp req1))) v2 (Timestamp req2))
      = fst (keyRecord_update
               (fst (keyRecord_update keyRec v2 (Timestamp req2))) v1 (Timestamp req1))
      /\ fst (keyRecord_update
                (fst (keyRecord_update keyRec v1 (Timestamp req1))) v2 (Timestamp req2))
         = if After (Timestamp req2) (kr_UpdatedAt keyRec)
           then mkKeyRecord v2 (Timestamp req2) else keyRec).
Proof.
  intros Hf1 Hf2 Hlt.
  split; [ | split; [ | split ] ].
  - rewrite (applyUpdateRequest_single r req1 field Hf1),
      (applyUpdateRequest_single r req2 field Hf2).
    destruct (resolve field) as [p|] eqn:Hp; cbn.
    + destruct (reqLeaf req1 p) as [v1|] eqn:Hv1;
        destruct (reqLeaf req2 p) as [v2|] eqn:Hv2; cbn;
        rewrite ?(applyUpdateRequest_single _ req1 field Hf1),
          ?(applyUpdateRequest_single _ req2 field Hf2), ?Hp, ?Hv1, ?Hv2; try done.
      destruct (ApplyFieldUpdate_order r p v1 v2 _ _
                  (reqLeaf_wellTyped _ _ _ Hv1) (reqLeaf_wellTyped _ _ _ Hv2) Hlt)
        as [-> ->]. done.
    + rewrite (applyUpdateRequest_single _ req1 field Hf1),
        (applyUpdateRequest_single _ req2 field Hf2), Hp. done.
  - intros p Hp [v1 Hv1] [v2 Hv2].
    rewrite (applyUpdateRequest_single r req1 field Hf1), Hp, Hv1. cbn.
    rewrite (applyUpdateRequest_single _ req2 field Hf2), Hp, Hv2.
    destruct (ApplyFieldUpdate_order r p v1 v2 _ _
                (reqLeaf_wellTyped _ _ _ Hv1) (reqLeaf_wellTyped _ _ _ Hv2) Hlt)
      as [-> _].
    eexists. split; [ reflexivity | ].
    pose proof (ApplyFieldUpdate_same r p v2 (Timestamp req2)
                  (reqLeaf_wellTyped _ _ _ Hv2)) as Hs.
    simpl in Hs. destruct (After (Timestamp req2) (leafTime r p)); [ | done ].
    destruct Hs as [-> ->]. done.
  - intros perm v1 v2. by apply booleanRecord_update_order.
  - intros keyRec v1 v2. by apply keyRecord_update_order.
Qed.

Lemma lww_later_update_wins_witness :
  (applyUpdateRequest (freshRecord 0) (boolRequest ["active"] false 1)
     ≫= fun r1 => applyUpdateRequest r1 (boolRequest ["active"] true 2))
  = (applyUpdateRequest (freshRecord 0) (boolRequest ["active"] true 2)
       ≫= fun r2 => applyUpdateRequest r2 (boolRequest ["active"] false 1)).
Proof.
  apply (lww_later_update_wins (freshRecord 0)
           (boolRequest ["active"] false 1) (boolRequest ["active"] true 2) "active").
  - reflexivity.
  - reflexivity.
  - simpl. lia.
Defined.

(** C6 as stated fails: on a field last written at 10, updates at 1 and
    at 2 are both rejected in either order, and the field does not end
    with the value and timestamp of the later one. *)
Lemma later_update_rejected_when_field_is_newer :
  fst (booleanRecord_update
         (fst (booleanRecord_update (mkBooleanRecord false 10) false 1)) true 2)
  = mkBooleanRecord false 10
  /\ fst (booleanRecord_update
            (fst (booleanRecord_update (mkBooleanRecord false 10) true 2)) false 1)
     = mkBooleanRecord false 10
  /\ mkBooleanRecord false 10 <> mkBooleanRecord true 2
  /\ (applyUpdateRequest (freshRecord 10) (boolRequest ["active"] false 1)
        ≫= fun r1 => applyUpdateRequest r1 (boolRequest ["active"] true 2))
     = Some (freshRecord 10)
  /\ leafTime (freshRecord 10) LActive <> 2%Z
  /\ leafVal (freshRecord 10) LActive <> VBool true.
Proof.
  repeat split; try (vm_compute; reflexivity); discriminate.
Qed.

(** * Properties of the key and envelope helpers *)

(** ** C4: what StringToAsymKey does on an input that holds no RSA key *)

(** C4 (the code departs from it in the third case).  When the input
    holds no PEM block, [StringToAsymKey] returns an error; when the
    block's bytes are no PKIX public key, it returns an error that
    carries the parser's message; when they are a PKIX public key of a
    kind other than RSA, the [default] case calls [err.Error()] on the
    nil [err] and the function panics instead of returning an error.
    It returns a key only for an RSA key. *)
Theorem StringToAsymKey_on_bad_input `{PemX509} (rsaString : string) :
  (fst (pem_Decode rsaString) = None ->
   StringToAsymKey rsaString
   = Err "failed to parse PEM block containing the public key")
  /\ (forall (block : Block) (err : string),
      fst (pem_Decode rsaString) = Some block ->
      x509_ParsePKIXPublicKey (b_Bytes block) = inr err ->
      StringToAsymKey rsaString
      = Err ("failed to parse DER encoded public key: " ++ err))
  /\ (forall (block : Block) (kind : string),
      fst (pem_Decode rsaString) = Some block ->
      x509_ParsePKIXPublicKey (b_Bytes block) = inl (OtherPublicKey kind) ->
      StringToAsymKey rsaString = Panic)
  /\ (forall pub : PublicKey,
      StringToAsymKey rsaString = Ok pub ->
      exists block : Block,
        fst (pem_Decode rsaString) = Some block
        /\ x509_ParsePKIXPublicKey (b_Bytes block) = inl (RSAPublicKey pub)).
Proof.
  unfold StringToAsymKey.
  destruct (pem_Decode rsaString) as [[block|] rest]; simpl.
  - split; [ discriminate | ]. split; [ | split ].
    + intros b err [= <-] ->. done.
    + intros b kind [= <-] ->. done.
    + intros pub.
      destruct (x509_ParsePKIXPublicKey (b_Bytes block)) as [[k|kind]|err] eqn:E;
        try discriminate.
      intros [= <-]. by exists block.
  - split; [ done | ]. repeat split; discriminate.
Qed.

(** The three cases, run on the toy library: an empty input, malformed
    DER bytes, and the PKIX encoding of an ECDSA key. *)
Example StringToAsymKey_bad_input_run :
  @StringToAsymKey toyPemX509 ""
  = Err "failed to parse PEM block containing the public key"
  /\ @StringToAsymKey toyPemX509 "junk"
     = Err "failed to parse DER encoded public key: asn1: structure error"
  /\ @StringToAsymKey toyPemX509 "ec" = Panic.
Proof. repeat split; reflexivity. Qed.

(** ** C9: a public key through AsymKeyToString and back *)

(** C9.  For an RSA public key [key] that the library marshals (to the
    PKIX/DER bytes [der]) and whose text and bytes the library reads
    back, [AsymKeyToString key] is the PEM text of the block with label
    ["RSA PUBLIC KEY"], no headers and payload [der], and
    [StringToAsymKey] on that text returns [key]. *)
Theorem asym_key_round_trip `{PemX509}
    (key : PublicKey) (der rest : string) (block : Block) :
  x509_MarshalPKIXPublicKey (RSAPublicKey key) = inl der ->
  pem_Decode (pem_EncodeToMemory (mkBlock "RSA PUBLIC KEY" ∅ der)) = (Some block, rest) ->
  b_Bytes block = der ->
  x509_ParsePKIXPublicKey der = inl (RSAPublicKey key) ->
  AsymKeyToString key = pem_EncodeToMemory (mkBlock "RSA PUBLIC KEY" ∅ der)
  /\ StringToAsymKey (AsymKeyToString key) = Ok key.
Proof.
  intros Hm Hd Hb Hp. unfold AsymKeyToString, StringToAsymKey.
  rewrite Hm, Hd, Hb, Hp. done.
Qed.

Lemma asym_key_round_trip_witness :
  @AsymKeyToString toyPemX509 (mkPublicKey 3233 17)
  = @pem_EncodeToMemory toyPemX509 (mkBlock "RSA PUBLIC KEY" ∅ "rsa")
  /\ @StringToAsymKey toyPemX509 (@AsymKeyToString toyPemX509 (mkPublicKey 3233 17))
     = Ok (mkPublicKey 3233 17).
Proof.
  apply (@asym_key_round_trip toyPemX509 (mkPublicKey 3233 17) "rsa" ""
           (mkBlock "RSA PUBLIC KEY" ∅ "rsa")); reflexivity.
Defined.

(** ** C3: the challenges of a sealed temporary envelope *)

(** C3 (amended).  The sealer builds a challenges map with exactly one
    entry, for its one recipient key (the key given, or a freshly
    generated one): the map key is the base64 text of the asymmetric
    encryption of the single-use symmetric key under the recipient's
    public key, the value the base64 text of the symmetric ciphertext
    of the challenge under that key and the envelope's nonce.  The
    envelope carries this map as the caller's [modifyChallenges] hook
    leaves it: with exactly that entry when the hook changes nothing. *)
Theorem seal_challenges `{CorePrims}
    (plainPayload plaintextChallenge : string)
    (hook : gmap string string -> gmap string string)
    (recipientKey : option PrivateKey) (rnd : Rand) (key : PrivateKey) :
  fst (sealRecipient recipientKey rnd) = Some key ->
  let entry := recipientEntry key plaintextChallenge recipientKey rnd in
  exists op : TemporaryEncryptedOperation,
    GenerateTemporaryEncryptedOperationWithEncryption
      plainPayload plaintextChallenge (Some hook) recipientKey rnd = Ok (op, key)
    /\ Challenges (Encryption op) = hook {[ fst entry := snd entry ]}
    /\ Nonce (Encryption op) = Base64EncodeToString (sealNonce rnd)
    /\ (forall k : PrivateKey, recipientKey = Some k -> key = k)
    /\ (hook {[ fst entry := snd entry ]} = {[ fst entry := snd entry ]} ->
        size (Challenges (Encryption op)) = 1%nat
        /\ Challenges (Encryption op) !! fst entry = Some (snd entry)).
Proof.
  unfold sealRecipient, recipientEntry, sealRecipient, sealKey, sealNonce,
    GenerateTemporaryEncryptedOperationWithEncryption.
  destruct (generateRandomBytes SymmetricNonceSize rnd) as [nonce rnd1]; simpl.
  destruct (generateRandomBytes SymmetricKeySize rnd1) as [tkey rnd2]; simpl.
  destruct (recipientOrFresh recipientKey rnd2) as [rk rnd3] eqn:Erk; simpl.
  intros ->.
  destruct (AsymmetricEncrypt (pk_PublicKey key) tkey rnd3) as [enc rnd4]; simpl.
  eexists. split; [ reflexivity | ]. simpl.
  split; [ reflexivity | ]. split; [ reflexivity | ]. split.
  - intros k ->. simpl in Erk. congruence.
  - intros ->. split; [ apply map_size_singleton | apply lookup_singleton_eq ].
Qed.

Lemma seal_challenges_witness :
  exists op : TemporaryEncryptedOperation,
    @GenerateTemporaryEncryptedOperationWithEncryption toyCorePrims
      "PAYLOAD" "CHALLENGE" (Some id) None 0%nat = Ok (op, toyRecipient)
    /\ Challenges (Encryption op) = {[ "rsa(key)" := "key/nonce/CHALLENGE" ]}.
Proof.
  destruct (@seal_challenges toyCorePrims "PAYLOAD" "CHALLENGE" id None 0%nat
              toyRecipient eq_refl) as (op & Hop & Hch & _).
  exists op. split; [ exact Hop | exact Hch ].
Defined.

(** C3 as stated fails: the hook decides what the envelope carries.  A
    hook that empties the map leaves no entry for the recipient, and one
    that adds an entry, as the package's test helper does, leaves more
    than one. *)
Lemma seal_hook_decides_the_challenges :
  (exists op : TemporaryEncryptedOperation,
      @GenerateTemporaryEncryptedOperationWithEncryption toyCorePrims
        "PAYLOAD" "CHALLENGE" (Some (fun _ => ∅)) (Some toyRecipient) 0%nat
      = Ok (op, toyRecipient)
      /\ Challenges (Encryption op) = ∅
      /\ size (Challenges (Encryption op)) = 0%nat)
  /\ (exists op : TemporaryEncryptedOperation,
      @GenerateTemporaryEncryptedOperationWithEncryption toyCorePrims
        "PAYLOAD" "CHALLENGE" (Some (fun m => <["random" := "test"]> m))
        (Some toyRecipient) 0%nat
      = Ok (op, toyRecipient)
      /\ size (Challenges (Encryption op)) = 2%nat).
Proof.
  split.
  - eexists. split; [ reflexivity | ]. split; [ reflexivity | apply map_size_empty ].
  - eexists. split; [ reflexivity | ]. simpl.
    rewrite map_size_insert_None; [ by rewrite map_size_singleton | ].
    by apply lookup_singleton_ne.
Qed.

(** * Further properties of the merge engine *)

(** A property of the record that every iteration of the loop keeps is
    kept by every sequence of requests. *)
Lemma applyFields_preserves (P : userRecord -> Prop) (req : UserRequest) :
  (forall r f r' ok, P r -> applyField r req f = Some (r', ok) -> P r') ->
  forall (fields : list string) (r r' : userRecord),
    P r -> applyFields r req fields = Some r' -> P r'.
Proof.
  intros Hstep fields. induction fields as [|f rest IH]; intros r r' HP; simpl.
  - by intros [= <-].
  - destruct (applyField r req f) as [[r1 ok]|] eqn:E; [ | discriminate ].
    apply IH. by eapply Hstep.
Qed.

Lemma applyRequests_preserves (P : userRecord -> Prop) :
  (forall r req f r' ok, P r -> applyField r req f = Some (r', ok) -> P r') ->
  forall (reqs : list UserRequest) (r r' : userRecord),
    P r -> applyRequests r reqs = Some r' -> P r'.
Proof.
  intros Hstep reqs. induction reqs as [|req rest IH]; intros r r' HP; simpl.
  - by intros [= <-].
  - destruct (applyUpdateRequest r req) as [r1|] eqn:E; [ | discriminate ].
    apply IH. eapply (applyFields_preserves P req); [ | exact HP | exact E ].
    intros. by eapply Hstep.
Qed.

Lemma applyField_rejected (r r' : userRecord) (req : UserRequest) (field : string) :
  applyField r req field = Some (r', false) -> r' = r.
Proof.
  rewrite applyField_spec.
  destruct (resolve field) as [p|]; [ | by intros [= <-] ].
  destruct (reqLeaf req p) as [v|]; [ | discriminate ].
  unfold ApplyFieldUpdate. destruct (After _ _); [ discriminate | by intros [= <-] ].
Qed.

Lemma applyField_accepted (r r' : userRecord) (req : UserRequest) (field : string) :
  applyField r req field = Some (r', true) ->
  exists p v, resolve field = Some p /\ reqLeaf req p = Some v
              /\ After (Timestamp req) (leafTime r p) = true
              /\ r' = acceptLeaf r p v (Timestamp req).
Proof.
  rewrite applyField_spec.
  destruct (resolve field) as [p|]; [ | discriminate ].
  destruct (reqLeaf req p) as [v|] eqn:Hv; [ | discriminate ].
  unfold ApplyFieldUpdate. destruct (After _ _) eqn:E; [ | discriminate ].
  intros [= <-]. by exists p, v.
Qed.

Lemma applyRequests_mono (reqs : list UserRequest) (r r' : userRecord) (p : leafPath) :
  applyRequests r reqs = Some r' -> (leafTime r p <= leafTime r' p)%Z.
Proof.
  apply (applyRequests_preserves (fun x => (leafTime r p <= leafTime x p)%Z)); [ | lia ].
  intros r0 req f r1 ok Hle E. pose proof (applyField_mono _ _ _ _ _ p E). lia.
Qed.

(** X1.  No sequence of requests moves the [UpdatedAt] of a leaf
    back. *)
Theorem leaf_timestamps_never_go_back
    (r r' : userRecord) (reqs : list UserRequest) (p : leafPath) :
  applyRequests r reqs = Some r' ->
  (leafTime r p <= leafTime r' p)%Z.
Proof. apply applyRequests_mono. Qed.

(** X2.  No sequence of requests changes the [Id] or the [CreatedAt]
    of the record. *)
Theorem identity_and_creation_time_kept
    (r r' : userRecord) (reqs : list UserRequest) :
  applyRequests r reqs = Some r' ->
  Id r' = Id r /\ CreatedAt r' = CreatedAt r.
Proof.
  apply (applyRequests_preserves (fun x => Id x = Id r /\ CreatedAt x = CreatedAt r));
    [ | done ].
  intros r0 req f r1 [|] [HId HC] E.
  - destruct (applyField_accepted _ _ _ _ E) as (p & v & _ & _ & _ & ->).
    rewrite <- HId, <- HC.
    destruct p as [ | | | | [ | | | | ] ]; destruct v; destruct_record r0; done.
  - by rewrite (applyField_rejected _ _ _ _ E).
Qed.




Lemma applyFields_containers (req : UserRequest) (fields : list string)
    (r r' : userRecord) (c : container) :
  applyFields r req fields = Some r' ->
  containerTime r' c =
  if acceptedBelow r req fields c then Timestamp req else containerTime r c.
Proof.
  unfold acceptedBelow. revert r. induction fields as [|f rest IH]; intros r; simpl.
  - by intros [= <-].
  - destruct (applyField r req f) as [[r1 ok]|] eqn:E; [ | discriminate ].
    intros H. rewrite (IH _ H). rewrite existsb_app. destruct ok; simpl.
    + destruct (applyField_accepted _ _ _ _ E) as (p & v & Hp & Hv & _ & ->).
      rewrite Hp, orb_false_r, acceptLeaf_container.
      destruct (isAncestor c p); simpl; [ | done ].
      by destruct (existsb _ _).
    + by rewrite (applyField_rejected _ _ _ _ E).
Qed.

(** X4.  After a request a container's [UpdatedAt] is the request's
    timestamp when a field accepted from the request lies below the
    container, and is unchanged otherwise. *)
Theorem containers_after_request (r r' : userRecord) (req : UserRequest) (c : container) :
  applyUpdateRequest r req = Some r' ->
  containerTime r' c =
  if acceptedBelow r req (FieldsUpdated req) c
  then Timestamp req else containerTime r c.
Proof. apply applyFields_containers. Qed.

Lemma applyFields_none_accepted (req : UserRequest) (fields : list string)
    (r r' : userRecord) :
  applyFields r req fields = Some r' -> acceptedFields r req fields = [] -> r' = r.
Proof.
  revert r. induction fields as [|f rest IH]; intros r; simpl.
  - by intros [= <-].
  - destruct (applyField r req f) as [[r1 ok]|] eqn:E; [ | discriminate ].
    intros H Hacc. destruct ok; [ discriminate | ]. simpl in Hacc.
    rewrite (applyField_rejected _ _ _ _ E) in *. by apply IH.
Qed.

(** X5.  A request from which no field is accepted leaves the whole
    record as it was; a request from which some field is accepted
    leaves the record's [UpdatedAt] at the request's timestamp. *)
Theorem record_changes_iff_accepted (r r' : userRecord) (req : UserRequest) :
  applyUpdateRequest r req = Some r' ->
  (acceptedFields r req (FieldsUpdated req) = [] -> r' = r)
  /\ (acceptedFields r req (FieldsUpdated req) <> [] -> UpdatedAt r' = Timestamp req).
Proof.
  intros H. split; [ by apply applyFields_none_accepted | ].
  intros Hne. change (UpdatedAt r') with (containerTime r' CRoot).
  rewrite (applyFields_containers _ _ _ _ CRoot H).
  unfold acceptedBelow.
  destruct (acceptedFields r req (FieldsUpdated req)) as [|f l] eqn:Hacc; [ done | ].
  assert (f ∈ acceptedFields r req (FieldsUpdated req)) as Hf by (rewrite Hacc; by left).
  destruct (accepted_resolves _ _ _ _ Hf) as [_ [p Hp]].
  simpl. by rewrite Hp.
Qed.

Lemma leaf_timestamps_never_go_back_witness :
  (leafTime laterSiblingRecord LActive
   <= leafTime (runRequests laterSiblingRecord [mixedRequest; lateRequest]) LActive)%Z.
Proof.
  apply (leaf_timestamps_never_go_back laterSiblingRecord _ [mixedRequest; lateRequest]).
  vm_compute. reflexivity.
Defined.

Lemma identity_and_creation_time_kept_witness :
  Id (runRequests laterSiblingRecord [mixedRequest; lateRequest]) = Id laterSiblingRecord
  /\ CreatedAt (runRequests laterSiblingRecord [mixedRequest; lateRequest])
     = CreatedAt laterSiblingRecord.
Proof.
  apply (identity_and_creation_time_kept laterSiblingRecord _ [mixedRequest; lateRequest]).
  vm_compute. reflexivity.
Defined.



Lemma containers_after_request_witness :
  containerTime afterMixedRequest CChannel = Timestamp mixedRequest
  /\ containerTime afterMixedRequest CUser = containerTime laterSiblingRecord CUser.
Proof.
  assert (applyUpdateRequest laterSiblingRecord mixedRequest = Some afterMixedRequest)
    as H by (vm_compute; reflexivity).
  split.
  - exact (containers_after_request laterSiblingRecord afterMixedRequest mixedRequest
             CChannel H).
  - exact (containers_after_request laterSiblingRecord afterMixedRequest mixedRequest
             CUser H).
Defined.

Lemma record_changes_iff_accepted_witness :
  UpdatedAt afterMixedRequest = Timestamp mixedRequest.
Proof.
  assert (applyUpdateRequest laterSiblingRecord mixedRequest = Some afterMixedRequest)
    as H by (vm_compute; reflexivity).
  destruct (record_changes_iff_accepted laterSiblingRecord afterMixedRequest
              mixedRequest H) as [_ Hacc].
  apply Hacc. vm_compute. discriminate.
Defined.

Lemma applyFields_nil_key (req : UserRequest) (fields : list string) (r : userRecord) :
  ("encKey" ∈ fields /\ encKeyObject (Data req) = None)
  \/ ("signKey" ∈ fields /\ signKeyObject (Data req) = None) ->
  applyFields r req fields = None.
Proof.
  revert r. induction fields as [|f rest IH]; intros r Hnil; simpl.
  - destruct Hnil as [[H _]|[H _]]; by apply elem_of_nil in H.
  - destruct (applyField r req f) as [[r1 ok]|] eqn:E; [ | done ].
    apply IH. rewrite applyField_spec in E.
    destruct Hnil as [[Hin Hk]|[Hin Hk]]; apply elem_of_cons in Hin as [<- | Hin].
    + change (resolve "encKey") with (Some LEncKey) in E.
      unfold reqLeaf in E. rewrite Hk in E. simpl in E. discriminate.
    + by left.
    + change (resolve "signKey") with (Some LSignKey) in E.
      unfold reqLeaf in E. rewrite Hk in E. simpl in E. discriminate.
    + by right.
Qed.

(** X6.  [applyUpdateRequest] fails to return, on a nil dereference,
    exactly when the request names [encKey] or [signKey] and carries a
    nil key object for it; fields processed before the named key are
    no protection, and no other request makes it fail. *)
Theorem panics_iff_nil_key_named (r : userRecord) (req : UserRequest) :
  applyUpdateRequest r req = None <-> nilKeyNamed req.
Proof.
  split; [ apply applyFields_panic | apply applyFields_nil_key ].
Qed.

(** * Further properties of the envelope generators *)

(** X9.  The temporary sealer checks neither its hook nor the outcome
    of key generation: with a nil hook, or with no recipient key given
    and a failed key generation, it panics. *)
Theorem seal_panics_without_hook_or_key `{CorePrims}
    (plainPayload plaintextChallenge : string)
    (modifyChallenges : option (gmap string string -> gmap string string))
    (recipientKey : option PrivateKey) (rnd : Rand) :
  modifyChallenges = None \/ fst (sealRecipient recipientKey rnd) = None ->
  GenerateTemporaryEncryptedOperationWithEncryption
    plainPayload plaintextChallenge modifyChallenges recipientKey rnd = Panic.
Proof.
  unfold sealRecipient, GenerateTemporaryEncryptedOperationWithEncryption.
  destruct (generateRandomBytes SymmetricNonceSize rnd) as [nonce rnd1]; simpl.
  destruct (generateRandomBytes SymmetricKeySize rnd1) as [tkey rnd2]; simpl.
  destruct (recipientOrFresh recipientKey rnd2) as [[key|] rnd3]; simpl; [ | done ].
  destruct (AsymmetricEncrypt (pk_PublicKey key) tkey rnd3) as [enc rnd4].
  intros [->|?]; done.
Qed.

Lemma seal_panics_without_hook_or_key_witness :
  @GenerateTemporaryEncryptedOperationWithEncryption toyCorePrims
    "PAYLOAD" "CHALLENGE" None (Some toyRecipient) 0%nat = Panic.
Proof.
  apply (@seal_panics_without_hook_or_key toyCorePrims). by left.
Defined.

(** X10.  The nonce and the payload of a sealed temporary envelope do not
    depend on the challenge, on the hook or on the recipient key: with
    the same payload and random source they are the base64 texts of the
    drawn nonce and of the payload's ciphertext under the drawn key and
    nonce, and the envelope is marked encrypted. *)
Theorem seal_payload_fixed `{CorePrims}
    (plainPayload plaintextChallenge : string)
    (modifyChallenges : option (gmap string string -> gmap string string))
    (recipientKey : option PrivateKey) (rnd : Rand)
    (op : TemporaryEncryptedOperation) (key : PrivateKey) :
  GenerateTemporaryEncryptedOperationWithEncryption
    plainPayload plaintextChallenge modifyChallenges recipientKey rnd = Ok (op, key) ->
  Payload op
  = Base64EncodeToString
      (SymmetricEncrypt (NewAead (sealKey rnd)) "" (sealNonce rnd) plainPayload)
  /\ Nonce (Encryption op) = Base64EncodeToString (sealNonce rnd)
  /\ Encrypted (Encryption op) = true
  /\ Version op = (1, -1)%Z.
Proof.
  unfold sealKey, sealNonce, GenerateTemporaryEncryptedOperationWithEncryption.
  destruct (generateRandomBytes SymmetricNonceSize rnd) as [nonce rnd1]; simpl.
  destruct (generateRandomBytes SymmetricKeySize rnd1) as [tkey rnd2]; simpl.
  destruct (recipientOrFresh recipientKey rnd2) as [[k|] rnd3]; simpl; [ | discriminate ].
  destruct (AsymmetricEncrypt (pk_PublicKey k) tkey rnd3) as [enc rnd4].
  destruct modifyChallenges as [hook|]; [ | discriminate ].
  intros [= <- _]. done.
Qed.

Lemma seal_payload_fixed_witness :
  exists op : TemporaryEncryptedOperation,
    Payload op = "key/nonce/PAYLOAD"
    /\ Nonce (Encryption op) = "nonce"
    /\ Encrypted (Encryption op) = true
    /\ Version op = (1, -1)%Z.
Proof.
  set (res := @GenerateTemporaryEncryptedOperationWithEncryption toyCorePrims
                "PAYLOAD" "CHALLENGE" (Some (fun _ => ∅)) None 0%nat).
  assert (exists op, res = Ok (op, toyRecipient)) as [op Hop]
    by (eexists; reflexivity).
  exists op.
  exact (@seal_payload_fixed toyCorePrims "PAYLOAD" "CHALLENGE" (Some (fun _ => ∅))
           None 0%nat op toyRecipient Hop).
Defined.

(** X11.  When both keys are generated, the permanent sealer signs the
    digest of the plaintext payload, once with each of the two keys it
    generates and returns; the operation carries what each hook makes
    of its signature (as returned when the hook says it is encoded, in
    base64 otherwise).  The key identifier, the request type, the
    base64 nonce and the base64 ciphertext of the payload under the
    given key and nonce are in the operation whatever the hooks do.  A
    nil hook makes the sealer panic. *)
Theorem permanent_seal_contents `{SignPrims}
    (keyId permanentKey permanentNonce : string) (requestType : Z)
    (plainPayload : string)
    (modifyIssuerSignature modifyCertifierSignature : option (string -> string * bool))
    (rnd : Rand) (issuerKey certifierKey : PrivateKey) :
  fst (generatePrivateKey rnd) = Some issuerKey ->
  fst (generatePrivateKey (snd (generatePrivateKey rnd))) = Some certifierKey ->
  let rnd2 := snd (generatePrivateKey (snd (generatePrivateKey rnd))) in
  let issuerSigned := Sign (Some issuerKey) (Hash plainPayload) rnd2 in
  let certifierSigned :=
    Sign (Some certifierKey) (Hash plainPayload) (snd issuerSigned) in
  match modifyIssuerSignature, modifyCertifierSignature with
  | Some issuerHook, Some certifierHook =>
      exists op : PermanentEncryptedOperation,
        GeneratePermanentEncryptedOperationWithEncryption
          keyId permanentKey permanentNonce requestType plainPayload
          modifyIssuerSignature modifyCertifierSignature rnd
        = Ok (op, Some issuerKey, Some certifierKey)
        /\ Signature (Issue op) = signatureText (issuerHook (fst issuerSigned))
        /\ Signature (Certification op)
           = signatureText (certifierHook (fst certifierSigned))
        /\ perm_Payload op
           = Base64EncodeToString
               (SymmetricEncrypt (NewAead permanentKey) "" permanentNonce plainPayload)
        /\ perm_Nonce (perm_Encryption op) = Base64EncodeToString permanentNonce
        /\ perm_Encrypted (perm_Encryption op) = true
        /\ KeyId (perm_Encryption op) = keyId
        /\ RequestType (Meta op) = requestType
  | _, _ =>
      GeneratePermanentEncryptedOperationWithEncryption
        keyId permanentKey permanentNonce requestType plainPayload
        modifyIssuerSignature modifyCertifierSignature rnd = Panic
  end.
Proof.
  unfold GeneratePermanentEncryptedOperationWithEncryption, signatureText. simpl.
  destruct (generatePrivateKey rnd) as [ik rnd1]; simpl.
  destruct (generatePrivateKey rnd1) as [ck rnd2]; simpl.
  intros -> ->.
  destruct (Sign (Some issuerKey) (Hash plainPayload) rnd2) as [isig rnd3]; simpl.
  destruct modifyIssuerSignature as [issuerHook|]; [ | done ].
  destruct (issuerHook isig) as [isig' ienc]; simpl.
  destruct (Sign (Some certifierKey) (Hash plainPayload) rnd3) as [csig rnd4]; simpl.
  destruct modifyCertifierSignature as [certifierHook|]; [ | done ].
  destruct (certifierHook csig) as [csig' cenc]; simpl.
  eexists. split; [ reflexivity | ]. simpl. done.
Qed.

Lemma permanent_seal_contents_witness :
  exists op : PermanentEncryptedOperation,
    @GeneratePermanentEncryptedOperationWithEncryption toyCorePrims toySignPrims
      "KEY_ID" "permanent" "nonce" 1 "REQUEST_PAYLOAD"
      (Some keepSignature) (Some (fun _ => ("forged", true))) 0%nat
    = Ok (op, Some toyRecipient, Some toyRecipient)
    /\ Signature (Issue op) = "sig(h(REQUEST_PAYLOAD))"
    /\ Signature (Certification op) = "forged".
Proof.
  destruct (@permanent_seal_contents toyCorePrims toySignPrims
              "KEY_ID" "permanent" "nonce" 1 "REQUEST_PAYLOAD"
              (Some keepSignature) (Some (fun _ => ("forged", true))) 0%nat
              toyRecipient toyRecipient eq_refl eq_refl)
    as (op & Hop & Hi & Hc & _).
  exists op. split; [ exact Hop | ]. split; [ exact Hi | exact Hc ].
Defined.

(** X12.  The helpers of the package's tests build what the exported
    generators build: [generateTemporaryEncryptedOperation] and
    [generatePermanentEncryptedOperation] are the exported generators
    with every field marked as not yet encoded, and, when both keys are
    generated, [generatePermanentEncryptedOperationWithEncryption] is
    the exported sealer run on the nonce it draws first, with hooks
    that leave the signatures alone. *)
Theorem test_helpers_agree `{SignPrims}
    (encrypted : bool) (challenges : gmap string string)
    (keyId permanentKey nonce issuerSignature certifierSignature payload : string)
    (requestType : Z) (rnd : Rand) :
  generateTemporaryEncryptedOperation encrypted challenges nonce payload
  = GenerateTemporaryEncryptedOperation encrypted challenges nonce false payload false
  /\ generatePermanentEncryptedOperation encrypted keyId nonce issuerSignature
       certifierSignature requestType payload
     = GeneratePermanentEncryptedOperation encrypted keyId nonce false
         issuerSignature false certifierSignature false requestType payload false
  /\ (forall issuerKey certifierKey : PrivateKey,
      let rnd0 := snd (generateRandomBytes SymmetricNonceSize rnd) in
      fst (generatePrivateKey rnd0) = Some issuerKey ->
      fst (generatePrivateKey (snd (generatePrivateKey rnd0))) = Some certifierKey ->
      GeneratePermanentEncryptedOperationWithEncryption keyId permanentKey
        (fst (generateRandomBytes SymmetricNonceSize rnd)) requestType payload
        (Some keepSignature) (Some keepSignature) rnd0
      = Ok (generatePermanentEncryptedOperationWithEncryption keyId permanentKey
              requestType payload rnd,
            Some issuerKey, Some certifierKey)).
Proof.
  split; [ reflexivity | ]. split; [ reflexivity | ].
  unfold GeneratePermanentEncryptedOperationWithEncryption,
    generatePermanentEncryptedOperationWithEncryption, keepSignature.
  destruct (generateRandomBytes SymmetricNonceSize rnd) as [permanentNonce rnd0]; simpl.
  intros issuerKey certifierKey.
  destruct (generatePrivateKey rnd0) as [ik rnd1]; simpl.
  destruct (generatePrivateKey rnd1) as [ck rnd2]; simpl.
  intros -> ->.
  destruct (Sign (Some issuerKey) (Hash payload) rnd2) as [isig rnd3]; simpl.
  destruct (Sign (Some certifierKey) (Hash payload) rnd3) as [csig rnd4]; simpl.
  done.
Qed.

(** * Properties of the startup utilities *)

Lemma mapSystemSignal_cases (o : literalOrder) (sig : Signal) :
  (sig ∈ handledSignals
   /\ (mapSystemSignal o sig = UserInterrupted
       \/ mapSystemSignal o sig = SystemTerminated))
  \/ ((sig ∉ handledSignals) /\ mapSystemSignal o sig = NoTermination).
Proof.
  unfold mapSystemSignal, signalMapping, handledSignals, os_Interrupt.
  destruct o; rewrite !lookup_insert, lookup_empty;
    repeat case_decide; subst; simpl;
    first [ left; split; [ rewrite !elem_of_cons; tauto | auto; fail ]
          | right; split; [ | reflexivity ];
            rewrite !elem_of_cons, elem_of_nil; intros [?|[?|[?|[?|[]]]]]; congruence ].
Qed.

(** X14.  A signal is mapped to a terminal cause exactly when it is one
    of SIGHUP, SIGINT, SIGQUIT and SIGTERM: such a signal maps to
    [UserInterrupted] or [SystemTerminated] (SIGHUP, SIGQUIT and SIGTERM
    always to [SystemTerminated]), never to [FatalError]; every other
    signal maps to [NoTermination], which is not terminal.  This holds
    whichever of the two entries for SIGINT the map literal keeps. *)
Theorem terminal_signals (o : literalOrder) (sig : Signal) :
  (isTerminal (mapSystemSignal o sig) = true <-> sig ∈ handledSignals)
  /\ (sig ∉ handledSignals -> mapSystemSignal o sig = NoTermination)
  /\ (sig ∈ [SIGHUP; SIGQUIT; SIGTERM] -> mapSystemSignal o sig = SystemTerminated)
  /\ mapSystemSignal o sig <> FatalError.
Proof.
  destruct (mapSystemSignal_cases o sig) as [[Hin [Hc|Hc]]|[Hout Hc]].
  - repeat split; try (rewrite Hc; done); try done.
    intros Hs. revert Hc. unfold mapSystemSignal, signalMapping, os_Interrupt.
    rewrite !elem_of_cons, elem_of_nil in Hs.
    destruct Hs as [->|[->|[->|[]]]]; by destruct o.
  - repeat split; try (rewrite Hc; done); try done.
  - repeat split; try (rewrite Hc; done); try done.
    intros Hs. exfalso. apply Hout. unfold handledSignals.
    rewrite !elem_of_cons, elem_of_nil in Hs. rewrite !elem_of_cons. tauto.
Qed.

(** X15.  [shutdownWhenSignaled] does not return while the signals
    received are outside the mapping; at the first signal of the mapping
    it logs that signal's message, which is "Detected user interruption"
    or "Detected system termination" and never the message of
    [FatalError], and exits with status 1, whatever signals follow. *)
Theorem shutdown_at_first_handled_signal
    (o : literalOrder) (ignored : list Signal) :
  Forall (fun s => s ∉ handledSignals) ignored ->
  shutdownWhenSignaled o ignored = None
  /\ forall (sig : Signal) (later : list Signal),
      sig ∈ handledSignals ->
      exists message : string,
        shutdownWhenSignaled o (ignored ++ sig :: later) = Some (message, 1%Z)
        /\ terminationCauseMessageMapping !! mapSystemSignal o sig = Some message
        /\ (message = "Detected user interruption"
            \/ message = "Detected system termination").
Proof.
  unfold shutdownWhenSignaled, listenForTermination, listenForSystemTermination.
  induction 1 as [|s ignored Hs Hall IH]; simpl.
  - split; [ done | ]. intros sig later Hin.
    destruct (mapSystemSignal_cases o sig) as [[_ [Hc|Hc]]|[Hout _]]; [ | | done ];
      rewrite Hc; simpl; eexists; (split; [ reflexivity | ]);
      (split; [ reflexivity | by auto ]).
  - destruct (mapSystemSignal_cases o s) as [[Hin _]|[_ Hc]]; [ done | ].
    rewrite Hc. simpl. exact IH.
Qed.

Lemma shutdown_at_first_handled_signal_witness :
  shutdownWhenSignaled SourceOrder [17%Z; 28%Z] = None
  /\ forall (sig : Signal) (later : list Signal),
      sig ∈ handledSignals ->
      exists message : string,
        shutdownWhenSignaled SourceOrder ([17%Z; 28%Z] ++ sig :: later)
        = Some (message, 1%Z)
        /\ terminationCauseMessageMapping !! mapSystemSignal SourceOrder sig
           = Some message
        /\ (message = "Detected user interruption"
            \/ message = "Detected system termination").
Proof.
  apply (shutdown_at_first_handled_signal SourceOrder [17%Z; 28%Z]).
  repeat constructor; unfold handledSignals;
    rewrite !elem_of_cons, elem_of_nil; intros [?|[?|[?|[?|[]]]]]; discriminate.
Defined.

(** * Replay and reordering of whole sequences of requests *)

Lemma unknownOrStale_mono (r r' : userRecord) (req : UserRequest) (field : string) :
  (forall p, (leafTime r p <= leafTime r' p)%Z) ->
  unknownOrStale r req field -> unknownOrStale r' req field.
Proof.
  intros Hmono [Hu | (p & Hp & Hv & Hle)]; [ by left | right ].
  exists p. split; [ done | ]. split; [ done | ]. specialize (Hmono p). lia.
Qed.

Lemma applyRequests_settles (reqs : list UserRequest) (r r' : userRecord) :
  applyRequests r reqs = Some r' ->
  forall req, req ∈ reqs -> forall f, f ∈ FieldsUpdated req -> unknownOrStale r' req f.
Proof.
  revert r. induction reqs as [|req0 rest IH]; intros r; simpl.
  - intros _ req Hin. by apply elem_of_nil in Hin.
  - destruct (applyUpdateRequest r req0) as [r1|] eqn:E; [ | discriminate ].
    intros H req Hin f Hf. apply elem_of_cons in Hin as [-> | Hin]; [ | by eapply IH ].
    apply (unknownOrStale_mono r1).
    + intros p. by apply (applyRequests_mono rest).
    + by eapply applyFields_settles.
Qed.

Lemma applyRequests_stale (reqs : list UserRequest) (r : userRecord) :
  (forall req, req ∈ reqs -> forall f, f ∈ FieldsUpdated req -> unknownOrStale r req f) ->
  applyRequests r reqs = Some r.
Proof.
  induction reqs as [|req0 rest IH]; intros Hall; simpl; [ done | ].
  unfold applyUpdateRequest.
  destruct (applyFields_stale req0 (FieldsUpdated req0) r) as [-> _].
  - apply Hall. by left.
  - apply IH. intros req Hin. apply Hall. by right.
Qed.

(** X7.  Replaying a whole sequence of requests on the record it
    produced changes nothing: the second pass returns the same
    record. *)
Theorem replay_of_a_sequence_is_a_noop
    (r r' : userRecord) (reqs : list UserRequest) :
  applyRequests r reqs = Some r' ->
  applyRequests r' reqs = Some r'.
Proof.
  intros H. apply applyRequests_stale. by eapply applyRequests_settles.
Qed.

Lemma replay_of_a_sequence_is_a_noop_witness :
  applyRequests (runRequests laterSiblingRecord [mixedRequest; lateRequest; earlyRequest])
    [mixedRequest; lateRequest; earlyRequest]
  = Some (runRequests laterSiblingRecord [mixedRequest; lateRequest; earlyRequest]).
Proof.
  apply (replay_of_a_sequence_is_a_noop laterSiblingRecord).
  vm_compute. reflexivity.
Defined.

(** The leaves of the record after a sequence of requests: each leaf is
    the fold of its own last-writer-wins register over the sequence. *)
Lemma applyRequests_leaf (reqs : list UserRequest) (r r' : userRecord) (p : leafPath) :
  applyRequests r reqs = Some r' ->
  (leafTime r' p, Some (leafVal r' p))
  = foldl (leafStep p) (leafTime r p, Some (leafVal r p)) reqs.
Proof.
  revert r. induction reqs as [|req rest IH]; intros r; simpl.
  - by intros [= <-].
  - destruct (applyUpdateRequest r req) as [r1|] eqn:E; [ | discriminate ].
    intros H. rewrite (IH _ H). f_equal.
    pose proof (applyFields_leaves req _ r r1 p E) as Hl.
    unfold leafStep. simpl.
    destruct (names (FieldsUpdated req) p && After (Timestamp req) (leafTime r p)).
    + destruct Hl as [-> <-]. done.
    + destruct Hl as [-> ->]. done.
Qed.

Lemma leafStep_comm (p : leafPath) (s : Time * option leafValue) (a b : UserRequest) :
  Timestamp a <> Timestamp b ->
  leafStep p (leafStep p s a) b = leafStep p (leafStep p s b) a.
Proof.
  intros Hne. unfold leafStep, After. destruct s as [t v]. simpl.
  destruct (names (FieldsUpdated a) p), (names (FieldsUpdated b) p); simpl; try done;
    destruct (Z.ltb_spec t (Timestamp a)); destruct (Z.ltb_spec t (Timestamp b)); simpl;
    repeat match goal with
           | |- context [(?x <? ?y)%Z] => destruct (Z.ltb_spec x y); simpl
           end; try done; lia.
Qed.

Lemma foldl_leafStep_perm (p : leafPath) (l l' : list UserRequest) :
  Permutation l l' -> NoDup (Timestamp <$> l) ->
  forall s, foldl (leafStep p) s l = foldl (leafStep p) s l'.
Proof.
  induction 1 as [|x l l' Hperm IH|x y l|l l' l'' H1 IH1 H2 IH2]; intros Hnd s; simpl.
  - done.
  - apply NoDup_cons in Hnd as [_ Hnd]. by apply IH.
  - rewrite leafStep_comm; [ done | ].
    rewrite !fmap_cons in Hnd. apply NoDup_cons in Hnd as [Hnotin _].
    intros Heq. apply Hnotin. rewrite Heq. by left.
  - rewrite IH1 by done. apply IH2.
    pose proof (fmap_Permutation Timestamp _ _ H1) as HP. by rewrite <- HP.
Qed.

(** X8.  Requests with pairwise different timestamps, applied in any
    order, leave every leaf with the same value and [UpdatedAt]. *)
Theorem leaves_converge_in_any_order
    (r r1 r2 : userRecord) (reqs reqs' : list UserRequest) (p : leafPath) :
  Permutation reqs reqs' ->
  NoDup (Timestamp <$> reqs) ->
  applyRequests r reqs = Some r1 ->
  applyRequests r reqs' = Some r2 ->
  leafTime r1 p = leafTime r2 p /\ leafVal r1 p = leafVal r2 p.
Proof.
  intros Hperm Hnd H1 H2.
  pose proof (applyRequests_leaf _ _ _ p H1) as E1.
  pose proof (applyRequests_leaf _ _ _ p H2) as E2.
  rewrite (foldl_leafStep_perm p _ _ Hperm Hnd) in E1.
  rewrite <- E2 in E1. by injection E1.
Qed.

Lemma leaves_converge_in_any_order_witness :
  leafTime (runRequests laterSiblingRecord [mixedRequest; lateRequest; earlyRequest])
    (LUser UAdd)
  = leafTime (runRequests laterSiblingRecord [earlyRequest; mixedRequest; lateRequest])
      (LUser UAdd)
  /\ leafVal (runRequests laterSiblingRecord [mixedRequest; lateRequest; earlyRequest])
       (LUser UAdd)
     = leafVal (runRequests laterSiblingRecord [earlyRequest; mixedRequest; lateRequest])
         (LUser UAdd).
Proof.
  apply (leaves_converge_in_any_order laterSiblingRecord _ _
           [mixedRequest; lateRequest; earlyRequest]
           [earlyRequest; mixedRequest; lateRequest]).
  - change [earlyRequest; mixedRequest; lateRequest]
      with (app [earlyRequest] [mixedRequest; lateRequest]).
    change [mixedRequest; lateRequest; earlyRequest]
      with (app [mixedRequest; lateRequest] [earlyRequest]).
    apply Permutation_app_comm.
  - vm_compute. repeat constructor; rewrite ?elem_of_cons, ?elem_of_nil;
      intros H; repeat destruct H as [H|H]; try discriminate H; done.
  - vm_compute. reflexivity.
  - vm_compute. reflexivity.
Defined.

(** The order matters for the containers: the same two requests leave
    the root's [UpdatedAt] at the timestamp of whichever was accepted
    last. *)
Example containers_depend_on_the_order :
  UpdatedAt (runRequests (freshRecord 0)
               [boolRequest ["active"] true 1
                ; boolRequest ["permissions.user.add"] true 3]) = 3%Z
  /\ UpdatedAt (runRequests (freshRecord 0)
                  [boolRequest ["permissions.user.add"] true 3
                   ; boolRequest ["active"] true 1]) = 1%Z.
Proof. split; reflexivity. Qed.

(** * The text of a key: what StringToAsymKey reads *)

(** X13.  [StringToAsymKey] reads nothing but the bytes of the first
    PEM block: the block's label and headers and whatever follows the
    block do not change the result. *)
Theorem StringToAsymKey_reads_only_the_bytes `{PemX509}
    (s1 s2 rest1 rest2 : string) (block1 block2 : Block) :
  pem_Decode s1 = (Some block1, rest1) ->
  pem_Decode s2 = (Some block2, rest2) ->
  b_Bytes block1 = b_Bytes block2 ->
  StringToAsymKey s1 = StringToAsymKey s2.
Proof.
  intros H1 H2 Hb. unfold StringToAsymKey. by rewrite H1, H2, Hb.
Qed.

Lemma StringToAsymKey_reads_only_the_bytes_witness :
  @StringToAsymKey labelledPemX509 "A" = @StringToAsymKey labelledPemX509 "B".
Proof.
  apply (@StringToAsymKey_reads_only_the_bytes labelledPemX509 "A" "B" "" "trailing text"
           (mkBlock "RSA PUBLIC KEY" ∅ "rsa") (mkBlock "CERTIFICATE" ∅ "rsa"));
    reflexivity.
Defined.
